(** * pytailer: line-boundary scanning, bulk extraction and follow sessions

    A shallow embedding of [src/tailer/__init__.py].  Python integers are
    [Z], byte strings are [list byte], the seekable stream is a record
    holding the bytes and the cursor, and every method that touches the
    stream is a function in a small state-and-exception monad. *)

From Stdlib Require Import Strings.String Strings.Byte.
From Stdlib Require Import ZArith List Bool Lia.
Import ListNotations.
Local Open Scope Z_scope.

(** ** The interpreter's [sys] module *)

Module Sys.

(** Number of 30-bit digits CPython stores for an integer. *)
Definition ndigits (x : Z) : Z :=
  if x =? 0 then 0 else Z.log2 (Z.abs x) / 30 + 1.

(** [sys.getsizeof] on an [int], CPython on a 64-bit build: a 24-byte
    header and four bytes per 30-bit digit, one digit at least.  (Before
    CPython 3.12 zero takes 24 bytes; the loop of [power_of_2] runs the
    same shifts for 24 and for 28.) *)
Definition getsizeof (x : Z) : Z := 24 + 4 * Z.max 1 (ndigits x).

End Sys.

(** ** [power_of_2] *)

(** The loop [while mod < size: x |= x >> mod; mod *= 2].  It returns the
    final [x] together with the final [mod]. *)
Fixpoint power_of_2_loop (fuel : nat) (x md size : Z) : Z * Z :=
  match fuel with
  | O => (x, md)
  | S fuel' =>
      if md <? size
      then power_of_2_loop fuel' (Z.lor x (Z.shiftr x md)) (md * 2) size
      else (x, md)
  end.

Definition power_of_2 (x : Z) : Z :=
  let x := x - 1 in
  let md := 1 in
  let size := Sys.getsizeof x in
  let x := fst (power_of_2_loop (Z.to_nat size) x md size) in
  x + 1.

(** [is_pow2 n]: [n] is a power of two. *)
Definition is_pow2 (n : Z) : Prop := exists k, 0 <= k /\ n = 2 ^ k.

(** [smeared x w y]: bit [i] of [y] is the disjunction of the [w] bits of
    [x] from [i] upwards. *)
Definition smeared (x w y : Z) : Prop :=
  forall i, 0 <= i ->
    (Z.testbit y i = true <-> exists j, 0 <= j < w /\ Z.testbit x (i + j) = true).

(** ** Byte strings *)

Definition bytes := list byte.

Definition CR : byte := x0d.
Definition LF : byte := x0a.

Fixpoint bytes_eqb (a b : bytes) : bool :=
  match a, b with
  | [], [] => true
  | x :: a', y :: b' => Byte.eqb x y && bytes_eqb a' b'
  | _, _ => false
  end.

(** [data.startswith(t)] and [data.endswith(t)]. *)
Fixpoint startswith (data t : bytes) : bool :=
  match t, data with
  | [], _ => true
  | _ :: _, [] => false
  | y :: t', x :: data' => Byte.eqb x y && startswith data' t'
  end.

Definition endswith (data t : bytes) : bool := startswith (rev data) (rev t).

(** The slices [data[:n]] and [data[n:]] for [0 <= n]. *)
Definition slice_to (data : bytes) (n : Z) : bytes := firstn (Z.to_nat n) data.
Definition slice_from (data : bytes) (n : Z) : bytes := skipn (Z.to_nat n) data.

Definition len (data : bytes) : Z := Z.of_nat (length data).

(** ** The stream: an in-memory seekable byte source *)

Record stream := mkStream { s_data : bytes; s_pos : nat }.

Inductive whence := SEEK_SET | SEEK_CUR | SEEK_END.

(** Exceptions the modelled code can raise.  [OutOfFuel] is not a Python
    exception: it marks a loop of the model that ran out of fuel, and is
    shown below never to come out of [next], [previous], [head], [tail]
    or a resumed [follow] generator. *)
Inductive exn :=
| ValueError
| IndexError
| AttributeError (attr : String.string)
| StopIteration
| OSError
| UnicodeDecodeError
| OutOfFuel.

Inductive result (A : Type) :=
| Ok (a : A)
| Raise (e : exn).
Arguments Ok {A} a.
Arguments Raise {A} e.

(** Computations over the stream; the stream survives an exception. *)
Definition M (A : Type) : Type := stream -> result A * stream.

Definition ret {A} (a : A) : M A := fun s => (Ok a, s).
Definition raise {A} (e : exn) : M A := fun s => (Raise e, s).
Definition bind {A B} (c : M A) (k : A -> M B) : M B :=
  fun s => match c s with
           | (Ok a, s') => k a s'
           | (Raise e, s') => (Raise e, s')
           end.

Declare Scope py_scope.
Delimit Scope py_scope with py.
Notation "x <- c ;; k" := (bind c (fun x => k))
  (at level 61, c at next level, right associativity) : py_scope.
Notation "' p <- c ;; k" := (bind c (fun x => let 'p := x in k))
  (at level 61, p pattern, c at next level, right associativity) : py_scope.
Notation "c ;;; k" := (bind c (fun _ => k))
  (at level 61, right associativity) : py_scope.
Local Open Scope py_scope.

Module Stream.

(** [stream.seek(offset, whence)]: a negative absolute position is
    refused ([io.BytesIO] raises [ValueError], a file [OSError]; the model
    has the former); relative to the cursor or the end the position is
    clamped at zero. *)
Definition seek (offset : Z) (w : whence) : M Z :=
  fun s =>
    match w with
    | SEEK_SET =>
        if offset <? 0 then (Raise ValueError, s)
        else (Ok offset, mkStream (s_data s) (Z.to_nat offset))
    | SEEK_CUR =>
        let p := Z.max 0 (Z.of_nat (s_pos s) + offset) in
        (Ok p, mkStream (s_data s) (Z.to_nat p))
    | SEEK_END =>
        let p := Z.max 0 (len (s_data s) + offset) in
        (Ok p, mkStream (s_data s) (Z.to_nat p))
    end.

Definition tell : M Z := fun s => (Ok (Z.of_nat (s_pos s)), s).

(** [stream.read(n)]: at most [n] bytes from the cursor, all of them when
    [n] is negative; nothing at or past the end. *)
Definition read (n : Z) : M bytes :=
  fun s =>
    let rest := skipn (s_pos s) (s_data s) in
    let got := if n <? 0 then rest else firstn (Z.to_nat n) rest in
    (Ok got, mkStream (s_data s) (s_pos s + length got)).

(** Bytes up to and including the first LF. *)
Fixpoint upto_LF (rest : bytes) : bytes :=
  match rest with
  | [] => []
  | b :: rest' => if Byte.eqb b LF then [b] else b :: upto_LF rest'
  end.

(** [stream.readline()]. *)
Definition readline : M bytes :=
  fun s =>
    let got := upto_LF (skipn (s_pos s) (s_data s)) in
    (Ok got, mkStream (s_data s) (s_pos s + length got)).

(** [os.fstat(stream.fileno()).st_size]. *)
Definition st_size : M Z := fun s => (Ok (len (s_data s)), s).

End Stream.

(** ** Class [Tailer] *)

Module Tailer.

(** An instance; its stream is the state of the monad. *)
Record t := mk { size : Z }.

Definition _terminators : list bytes := [[CR; LF]; [LF]; [CR]].

(** [b"\r\n" in self._terminators] and the like. *)
Definition in_terminators (line : bytes) : bool :=
  existsb (bytes_eqb line) _terminators.

(** [Tailer(stream, size, end)]: the [size] setter stores
    [power_of_2(value)]. *)
Definition init (size_ : Z) (end_ : bool) : M t :=
  let self := mk (power_of_2 size_) in
  if end_ then Stream.seek 0 SEEK_END ;;; ret self else ret self.

Definition seek (self : t) (offset : Z) (w : whence) : M Z :=
  Stream.seek offset w.

Definition tell (self : t) : M Z := Stream.tell.

(** [re.split(b"\r\n|\n|\r", data)]: at every position the alternatives
    are tried in order; [cur] is the current piece, reversed. *)
Fixpoint re_split (data cur : bytes) : list bytes :=
  match data with
  | [] => [rev cur]
  | b :: rest =>
      if Byte.eqb b CR then
        match rest with
        | b' :: rest' =>
            if Byte.eqb b' LF then rev cur :: re_split rest' []
            else rev cur :: re_split rest []
        | [] => rev cur :: re_split rest []
        end
      else if Byte.eqb b LF then rev cur :: re_split rest []
      else re_split rest (b :: cur)
  end.

Definition splitlines (self : t) (data : bytes) : list bytes :=
  re_split data [].

Definition read (self : t) (read_size : Z) : M (Z * bytes) :=
  read_str <- Stream.read read_size ;;
  ret (len read_str, read_str).

Definition term (method : bytes -> bool) : option bytes :=
  find method _terminators.

Definition prefix (self : t) (data : bytes) : option bytes :=
  term (startswith data).

Definition suffix (self : t) (data : bytes) : option bytes :=
  term (endswith data).

(** [data[i]], negative [i] counting from the end. *)
Definition getitem (data : bytes) (i : Z) : M byte :=
  let j := if i <? 0 then len data + i else i in
  if j <? 0 then raise IndexError
  else match nth_error data (Z.to_nat j) with
       | Some b => ret b
       | None => raise IndexError
       end.

(** *** [next] *)

(** The inner loop of [next]: the first [data_where] at which
    [data[data_where:]] begins with a terminator. *)
Fixpoint next_scan (self : t) (rest : bytes) (data_where : Z)
  : option (Z * bytes) :=
  match rest with
  | [] => None
  | _ :: rest' =>
      match prefix self rest with
      | Some terminator => Some (data_where, terminator)
      | None => next_scan self rest' (data_where + 1)
      end
  end.

(** The one-byte peek of [next]: a chunk ending in CR takes in the LF
    that follows it, if there is one. *)
Definition next_peek (self : t) (data_len : Z) (data : bytes)
  : M (Z * bytes) :=
  ends_cr <- (if in_terminators [CR; LF]
              then b <- getitem data (-1) ;; ret (Byte.eqb b CR)
              else ret false) ;;
  if ends_cr : bool then
    terminator_where <- tell self ;;
    '(length_, terminator_data) <- read self 1 ;;
    is_lf <- (if length_ =? 0 then ret false
              else b <- getitem terminator_data 0 ;; ret (Byte.eqb b LF)) ;;
    if is_lf : bool then ret (data_len + 1, data ++ [LF])
    else seek self terminator_where SEEK_SET ;;; ret (data_len, data)
  else ret (data_len, data).

Fixpoint next_loop (fuel : nat) (self : t) (where_ offset : Z) : M Z :=
  match fuel with
  | O => raise OutOfFuel
  | S fuel' =>
      '(data_len, data) <- read self (size self) ;;
      if data_len =? 0 then ret (-1)
      else
        '(data_len, data) <- next_peek self data_len data ;;
        match next_scan self data 0 with
        | Some (data_where, terminator) =>
            seek self (where_ + offset + data_where + len terminator)
              SEEK_SET ;;;
            tell self
        | None =>
            let offset := offset + data_len in
            seek self (where_ + offset) SEEK_SET ;;;
            next_loop fuel' self where_ offset
        end
  end.

(** Every pass but the last consumes a byte, so one unit of fuel per
    remaining byte and one more are enough. *)
Definition next (self : t) : M Z :=
  fun s =>
    (where_ <- Stream.tell ;;
     next_loop (S (length (s_data s) - s_pos s)) self where_ 0) s.

(** *** [previous] *)

(** The inner loop of [previous], scanning [data] backwards from
    [data_where]; [None] when it falls through.  Every pass lowers
    [data_where], so [data_where] units of fuel are enough. *)
Fixpoint previous_scan (fuel : nat) (self : t) (data : bytes)
    (data_len where_ offset data_where : Z) : M (option Z) :=
  if 0 <? data_where then
    match fuel with
    | O => raise OutOfFuel
    | S fuel' =>
        match suffix self (slice_to data data_where) with
        | Some terminator =>
            if (offset =? 0) && (data_where =? data_len) then
              previous_scan fuel' self data data_len where_ offset
                (data_where - len terminator)
            else
              seek self (where_ - offset - (data_len - data_where))
                SEEK_SET ;;;
              p <- tell self ;;
              ret (Some p)
        | None =>
            previous_scan fuel' self data data_len where_ offset
              (data_where - 1)
        end
    end
  else ret None.

(** The one-byte peek of [previous]: a chunk beginning with LF takes in the
    CR before it, if there is one. *)
Definition previous_peek (self : t) (where_ offset data_len : Z)
    (data : bytes) : M (Z * bytes) :=
  begins_lf <- (if in_terminators [CR; LF]
                then b <- getitem data 0 ;; ret (Byte.eqb b LF)
                else ret false) ;;
  if begins_lf : bool then
    terminator_where <- tell self ;;
    if data_len + 1 <? terminator_where then
      seek self (where_ - offset - data_len - 1) SEEK_SET ;;;
      '(_, terminator_data) <- read self 1 ;;
      b <- getitem terminator_data 0 ;;
      let '(data_len, data) :=
        if Byte.eqb b CR then (data_len + 1, CR :: data)
        else (data_len, data) in
      seek self terminator_where SEEK_SET ;;;
      ret (data_len, data)
    else ret (data_len, data)
  else ret (data_len, data).

Fixpoint previous_loop (fuel : nat) (self : t) (where_ offset : Z) : M Z :=
  match fuel with
  | O => raise OutOfFuel
  | S fuel' =>
      if offset =? where_ then
        if where_ =? 0 then ret (-1)
        else seek self 0 SEEK_SET ;;; ret 0
      else
        let read_size := if size self <=? where_ then size self else where_ in
        seek self (where_ - offset - read_size) SEEK_SET ;;;
        '(data_len, data) <- read self read_size ;;
        '(data_len, data) <- previous_peek self where_ offset data_len data ;;
        r <- previous_scan (length data) self data data_len where_ offset
               data_len ;;
        match r with
        | Some p => ret p
        | None => previous_loop fuel' self where_ (offset + data_len)
        end
  end.

(** [offset] grows by at least one byte per pass and a pass with
    [offset] beyond [where + max(0, -size)] raises. *)
Definition previous (self : t) : M Z :=
  where_ <- Stream.tell ;;
  previous_loop (S (S (Z.to_nat where_ + Z.to_nat (- size self))))
    self where_ 0.

(** *** [tail] and [head] *)

(** The loop over [_terminators] in [tail] and [head]: the first
    terminator the data ends with is cut off. *)
Definition strip_terminator (data : bytes) : bytes :=
  match find (endswith data) _terminators with
  | Some t => slice_to data (len data - len t)
  | None => data
  end.

(** [while lines and self.previous() != -1: lines -= 1] *)
Fixpoint tail_loop (fuel : nat) (self : t) (lines : Z) : M unit :=
  match fuel with
  | O => raise OutOfFuel
  | S fuel' =>
      if lines =? 0 then ret tt
      else p <- previous self ;;
           if p =? -1 then ret tt else tail_loop fuel' self (lines - 1)
  end.

Definition tail (self : t) (lines : Z) : M (list bytes) :=
  end_ <- seek self 0 SEEK_END ;;
  tail_loop (S (Z.to_nat end_)) self lines ;;;
  data <- Stream.read (-1) ;;
  let data := strip_terminator data in
  ret (match data with [] => [] | _ :: _ => splitlines self data end).

(** [while lines and self.next() != -1: lines -= 1] *)
Fixpoint head_loop (fuel : nat) (self : t) (lines : Z) : M unit :=
  match fuel with
  | O => raise OutOfFuel
  | S fuel' =>
      if lines =? 0 then ret tt
      else p <- next self ;;
           if p =? -1 then ret tt else head_loop fuel' self (lines - 1)
  end.

Definition head (self : t) (lines : Z) : M (list bytes) :=
  fun s =>
    (seek self 0 SEEK_SET ;;;
     head_loop (S (length (s_data s))) self lines ;;;
     end_pos <- tell self ;;
     seek self 0 SEEK_SET ;;;
     data <- Stream.read end_pos ;;
     let data := strip_terminator data in
     ret (match data with [] => [] | _ :: _ => splitlines self data end)) s.

(** *** [follow] *)

(** Attribute lookup [self.<name>] for the methods that take a byte string
    and may return a terminator.  The class defines [prefix] and [suffix];
    any other name raises [AttributeError]. *)
Definition getattr (self : t) (name : String.string)
  : M (bytes -> option bytes) :=
  if String.eqb name "prefix"%string then ret (prefix self)
  else if String.eqb name "suffix"%string then ret (suffix self)
  else raise (AttributeError name).

(** How one pass through the body of [while True] in [follow] ends: at
    [continue], or at a [yield]; both carry the value of [trailing]. *)
Inductive pass :=
| Continue (trailing : bool)
| Yield (line : option bytes) (trailing : bool).

Definition follow_body (self : t) (trailing : bool) : M pass :=
  where_ <- tell self ;;
  st_size <- Stream.st_size ;;
  where_ <- (if st_size <? where_
             then seek self 0 SEEK_SET ;;; ret 0
             else ret where_) ;;
  line <- Stream.readline ;;
  match line with
  | _ :: _ =>
      if trailing && in_terminators line then ret (Continue false)
      else
        suffix_line_terminator <- getattr self "suffix_line_terminator"%string ;;
        let line :=
          match suffix_line_terminator line with
          | Some terminator => slice_to line (len line - len terminator)
          | None => line
          end in
        ret (Yield (Some line) false)
  | [] =>
      seek self where_ SEEK_SET ;;;
      ret (Yield None true)
  end.

(** Resuming the generator: passes until the next [yield]. *)
Fixpoint follow_loop (fuel : nat) (self : t) (trailing : bool)
  : M (option bytes * bool) :=
  match fuel with
  | O => raise OutOfFuel
  | S fuel' =>
      p <- follow_body self trailing ;;
      match p with
      | Continue trailing' => follow_loop fuel' self trailing'
      | Yield line trailing' => ret (line, trailing')
      end
  end.

(** The generator object [follow] returns: not yet started, suspended at a
    [yield] with its local [trailing], or finished by an exception. *)
Inductive gen_state :=
| GenCreated
| GenSuspended (trailing : bool)
| GenFinished.

Record generator := mkGen { g_self : t; g_state : gen_state }.

Definition follow (self : t) : generator := mkGen self GenCreated.

End Tailer.

(** [next(generator)].  A [continue] clears [trailing], so a second pass
    always reaches a [yield] or raises: two units of fuel are enough. *)
Definition generator_next (g : Tailer.generator) (s : stream)
  : result (option bytes) * Tailer.generator * stream :=
  let self := Tailer.g_self g in
  let resume trailing :=
    match Tailer.follow_loop 2 self trailing s with
    | (Ok (line, trailing'), s') =>
        (Ok line, Tailer.mkGen self (Tailer.GenSuspended trailing'), s')
    | (Raise e, s') => (Raise e, Tailer.mkGen self Tailer.GenFinished, s')
    end in
  match Tailer.g_state g with
  | Tailer.GenCreated => resume true
  | Tailer.GenSuspended trailing => resume trailing
  | Tailer.GenFinished => (Raise StopIteration, g, s)
  end.

(** ** Module-level functions *)

Definition tail (lines read_size : Z) : M (list bytes) :=
  self <- Tailer.init read_size false ;;
  Tailer.tail self lines.

Definition head (lines read_size : Z) : M (list bytes) :=
  self <- Tailer.init read_size false ;;
  Tailer.head self lines.

Definition follow : M Tailer.generator :=
  self <- Tailer.init 1024 true ;;
  ret (Tailer.follow self).

(** Byte strings of the examples. *)
Definition b (s : String.string) : bytes := String.list_byte_of_string s.
Definition CRLF : bytes := [CR; LF].
Definition file (data : bytes) : stream := mkStream data 0.

(** ** [follow_path]: class [FollowPathGenerator] *)

Module FollowPath.

(** An open file object: the inode behind it, its bytes and cursor, and
    whether [close] was called. *)
Record file_obj := mkFile { f_ino : nat; f_stream : stream; f_closed : bool }.

(** The generator [Tailer(file, ...).follow()] keeps a reference to the
    file object it reads: [gr_file] is its index in [files]. *)
Record gen_ref := mkRef { gr_gen : Tailer.generator; gr_file : nat }.

(** The instance attributes, and the file objects they refer to. *)
Record state := mkState {
  files : list file_obj;
  following_file : option nat;
  follow_generator : option gen_ref;
  follow_from_end_on_open : bool
}.

(** What the operating system answers during one call of [next]. *)
Record answers := mkAnswers {
  (** [os.path.isfile(file_path)] in the identity check *)
  isfile_check : bool;
  (** [os.stat(file_path).st_ino]; [None] when [os.stat] raises [OSError] *)
  stat_st_ino : option nat;
  (** [os.path.isfile(file_path)] before the open *)
  isfile_open : bool;
  (** [io.open(file_path, "rb", buffering)]: inode and bytes of the file
      opened; [None] when it raises [IOError] or [OSError] *)
  io_open : option (nat * bytes)
}.

Fixpoint set_nth {A} (l : list A) (i : nat) (x : A) : list A :=
  match l, i with
  | [], _ => []
  | _ :: l', O => x :: l'
  | y :: l', S i' => y :: set_nth l' i' x
  end.

(** [file.close()] *)
Definition close (st : state) (h : nat) : state :=
  match nth_error (files st) h with
  | Some f =>
      mkState (set_nth (files st) h (mkFile (f_ino f) (f_stream f) true))
        (following_file st) (follow_generator st)
        (follow_from_end_on_open st)
  | None => st
  end.

(** [next(self.follow_generator)]: the generator runs on the file object
    it refers to; reading a closed file raises [ValueError]. *)
Definition poll (st : state) (g : gen_ref) : result (option bytes) * state :=
  match nth_error (files st) (gr_file g) with
  | Some f =>
      let '(r, gen', s') :=
        if f_closed f
        then (Raise ValueError,
              Tailer.mkGen (Tailer.g_self (gr_gen g)) Tailer.GenFinished,
              f_stream f)
        else generator_next (gr_gen g) (f_stream f) in
      (r, mkState (set_nth (files st) (gr_file g)
                     (mkFile (f_ino f) s' (f_closed f)))
            (following_file st) (Some (mkRef gen' (gr_file g)))
            (follow_from_end_on_open st))
  | None => (Raise ValueError, st)
  end.

(** [io.open(...)] followed by [Tailer(file, end=end_).follow()]: a new
    file object, and a generator not yet started. *)
Definition open_and_follow (st : state) (ino : nat) (data : bytes)
    (end_ : bool) : result gen_ref * state :=
  let h := length (files st) in
  match Tailer.init 1024 end_ (mkStream data 0) with
  | (Ok tailer, s) =>
      (Ok (mkRef (Tailer.follow tailer) h),
       mkState (files st ++ [mkFile ino s false]) (Some h)
         (follow_generator st) (follow_from_end_on_open st))
  | (Raise e, s) =>
      (Raise e,
       mkState (files st ++ [mkFile ino s false]) (Some h)
         (follow_generator st) (follow_from_end_on_open st))
  end.

(** [FollowPathGenerator.__init__]; [isfile] and [opened] are the answers
    of [os.path.isfile] and [io.open]. *)
Definition init (isfile : bool) (opened : option (nat * bytes))
  : result state :=
  let st := mkState [] None None false in
  if isfile then
    match opened with
    | Some (ino, data) =>
        match open_and_follow st ino data true with
        | (Ok g, st) =>
            Ok (mkState (files st) (following_file st) (Some g) false)
        | (Raise e, _) => Raise e
        end
    | None => Raise OSError
    end
  else Ok (mkState [] None None true).

Section Next.

Context {text : Type} (decode : bytes -> result text).

(** The identity check, with its [except OSError]. *)
Definition is_file_changed (a : answers) (st : state) : result bool :=
  if negb (isfile_check a) then Ok true
  else match stat_st_ino a with
       | None => Ok true
       | Some ino =>
           match following_file st with
           | Some h =>
               match nth_error (files st) h with
               | Some f =>
                   if f_closed f then Raise ValueError
                   else Ok (negb (Nat.eqb ino (f_ino f)))
               | None => Raise ValueError
               end
           | None => Raise (AttributeError "fileno")
           end
       end.

(** [self.following_file.close()] *)
Definition close_following_file (st : state) : result unit * state :=
  match following_file st with
  | Some h => (Ok tt, close st h)
  | None => (Raise (AttributeError "close"), st)
  end.

Definition discard (st : state) : state :=
  mkState (files st) None None (follow_from_end_on_open st).

(** The [except (IOError, OSError)] branch. *)
Definition open_failed (st : state) : result (option bytes) * state :=
  let st :=
    match following_file st with
    | Some h => close st h
    | None => st
    end in
  (Ok None, discard st).

(** The [try] that opens the new stream, with its [except] and [else]. *)
Definition reopen (a : answers) (st : state)
  : result (option bytes) * state :=
  match io_open a with
  | Some (ino, data) =>
      match open_and_follow st ino data (follow_from_end_on_open st) with
      | (Ok g, st) =>
          let st := mkState (files st) (following_file st) (Some g) false in
          poll st g
      | (Raise OSError, st) => open_failed st
      | (Raise e, st) => (Raise e, st)
      end
  | None => open_failed st
  end.

Definition return_line (line : option bytes) : result (option text) :=
  match line with
  | Some l =>
      match decode l with
      | Ok t => Ok (Some t)
      | Raise e => Raise e
      end
  | None => Ok None
  end.

(** [if self.follow_generator:] with the identity check under it: a
    changed file is closed and forgotten together with its generator. *)
Definition check_identity (a : answers) (st : state) : result unit * state :=
  match follow_generator st with
  | Some _ =>
      match is_file_changed a st with
      | Raise e => (Raise e, st)
      | Ok true =>
          match close_following_file st with
          | (Ok _, st) => (Ok tt, discard st)
          | (Raise e, st) => (Raise e, st)
          end
      | Ok false => (Ok tt, st)
      end
  | None => (Ok tt, st)
  end.

(** [if not self.follow_generator and os.path.isfile(file_path):]; the
    line stays [None] when nothing is opened. *)
Definition open_new_stream (a : answers) (st : state)
  : result (option bytes) * state :=
  match follow_generator st with
  | None => if isfile_open a then reopen a st else (Ok None, st)
  | Some _ => (Ok None, st)
  end.

(** [FollowPathGenerator.next]; the body of its [while True] ends in
    [return], so it runs once. *)
Definition next (a : answers) (st : state) : result (option text) * state :=
  let '(r, st) :=
    match follow_generator st with
    | Some g => poll st g
    | None => (Ok None, st)
    end in
  match r with
  | Raise e => (Raise e, st)
  | Ok (Some line) => (return_line (Some line), st)
  | Ok None =>
      match check_identity a st with
      | (Raise e, st) => (Raise e, st)
      | (Ok _, st) =>
          match open_new_stream a st with
          | (Ok line, st) => (return_line line, st)
          | (Raise e, st) => (Raise e, st)
          end
      end
  end.

End Next.

(** The invariant of the instance: a generator is stored exactly when an
    open file is. *)
Definition invariant (st : state) : Prop :=
  follow_generator st = None <-> following_file st = None.

(** While the flag is set nothing has been opened. *)
Definition unopened_while_flagged (st : state) : Prop :=
  follow_from_end_on_open st = true -> files st = [].

(** The writer's side: the bytes of the file behind a file object change,
    the cursor of the file object stays. *)
Definition written (st : state) (h : nat) (data : bytes) : state :=
  match nth_error (files st) h with
  | Some f =>
      mkState
        (set_nth (files st) h
           (mkFile (f_ino f) (mkStream data (s_pos (f_stream f)))
              (f_closed f)))
        (following_file st) (follow_generator st)
        (follow_from_end_on_open st)
  | None => st
  end.

(** The states an instance goes through: built by [__init__], then any
    number of calls of [next] with writes to the files in between. *)
Inductive reachable {text : Type} (decode : bytes -> result text)
  : state -> Prop :=
| reach_init isfile opened st :
    init isfile opened = Ok st -> reachable decode st
| reach_next a st :
    reachable decode st -> reachable decode (snd (next decode a st))
| reach_written h data st :
    reachable decode st -> reachable decode (written st h data).

End FollowPath.

(** ** The writer's side, and the streams of the examples *)

(** An external writer appends to the file the stream reads. *)
Definition write (data : bytes) (s : stream) : stream :=
  mkStream (s_data s ++ data) (s_pos s).

(** Where a pass of [follow] reads from: the cursor, or 0 when the file
    was truncated below it; and the line [readline] returns there. *)
Definition read_from (s : stream) : nat :=
  if len (s_data s) <? Z.of_nat (s_pos s) then 0%nat else s_pos s.

Definition line_at (s : stream) : bytes :=
  Stream.upto_LF (skipn (read_from s) (s_data s)).

(** The doctest of [follow_path]: the file followed (inode 1) has been
    read to its end, then the path was removed and created again (inode
    2) with "Line 4" LF in it. *)
Definition rotated : FollowPath.answers :=
  FollowPath.mkAnswers true (Some 2%nat) true (Some (2%nat, b "Line 4" ++ [LF])).

(** The instance [__init__] builds when the path exists: an empty file
    with inode 1, followed from its end. *)
Definition following : FollowPath.state :=
  FollowPath.mkState [FollowPath.mkFile 1 (mkStream [] 0) false] (Some 0%nat)
    (Some (FollowPath.mkRef (Tailer.follow (Tailer.mk 1024)) 0)) false.

Definition scenario_A : bytes :=
  [CR] ++ b "Line 1" ++ CRLF ++ b "Line 2" ++ [LF] ++ b "Line 3" ++ [CR]
  ++ b "Line 4" ++ CRLF ++ [LF] ++ CRLF ++ CRLF.

Definition two_lines : bytes := b "Line 1" ++ [LF] ++ b "Line 2".

(** ** Reference functions for the scans *)

Definition ends_with_CR (data : bytes) : bool :=
  match rev data with
  | x :: _ => Byte.eqb x CR
  | [] => false
  end.

Definition starts_with_LF (data : bytes) : bool :=
  match data with
  | y :: _ => Byte.eqb y LF
  | [] => false
  end.

(** Index of the first terminator in [rest], and the terminator: a CR
    followed by LF is the one terminator CR LF. *)
Fixpoint first_terminator (rest : bytes) : option (nat * bytes) :=
  match rest with
  | [] => None
  | x :: rest' =>
      if Byte.eqb x CR
      then Some (0%nat, if starts_with_LF rest' then [CR; LF] else [CR])
      else if Byte.eqb x LF then Some (0%nat, [LF])
      else match first_terminator rest' with
           | Some (i, t) => Some (S i, t)
           | None => None
           end
  end.

(** ** Lines and their joining *)

(** A line holds no CR and no LF. *)
Definition is_line (l : bytes) : Prop := ~ In CR l /\ ~ In LF l.

(** [first], then every line of [more] after its terminator. *)
Fixpoint join_lines (first : bytes) (more : list (bytes * bytes)) : bytes :=
  match more with
  | [] => first
  | (t, l) :: more' => first ++ t ++ join_lines l more'
  end.

(** The terminators of [more] are among the three and its lines are lines;
    and no terminator CR is followed at once, over an empty line, by a
    terminator LF (the two bytes would read as the one terminator CR LF). *)
Fixpoint separated (more : list (bytes * bytes)) : Prop :=
  match more with
  | [] => True
  | (t, l) :: more' =>
      In t Tailer._terminators
      /\ is_line l
      /\ (t = [CR] -> l = [] ->
          match more' with
          | (t', _) :: _ => t' <> [LF]
          | [] => True
          end)
      /\ separated more'
  end.
(** ** [power_of_2] *)

Lemma smeared_init x : smeared x 1 x.
Proof.
  intros i Hi; split.
  - intros H; exists 0; split; [lia|]. now rewrite Z.add_0_r.
  - intros (j & Hj & H). replace (i + j) with i in H by lia. exact H.
Qed.

Lemma smeared_step x w y :
  0 < w -> smeared x w y -> smeared x (w * 2) (Z.lor y (Z.shiftr y w)).
Proof.
  intros Hw Hs i Hi.
  rewrite Z.lor_spec, Z.shiftr_spec by assumption.
  rewrite orb_true_iff, (Hs i Hi), (Hs (i + w)) by lia.
  split.
  - intros [(j & Hj & H) | (j & Hj & H)].
    + exists j; split; [lia | exact H].
    + exists (w + j); split; [lia|]. now rewrite Z.add_assoc.
  - intros (j & Hj & H).
    destruct (Z.lt_ge_cases j w) as [Hlt | Hge].
    + left; exists j; split; [lia | exact H].
    + right; exists (j - w); split; [lia|].
      now replace (i + w + (j - w)) with (i + j) by lia.
Qed.

(** The loop keeps the window invariant, and with [size] units of fuel it
    leaves through its guard: the final [mod] is at least [size]. *)
Lemma power_of_2_loop_smeared fuel : forall x0 y md size,
  0 < md -> smeared x0 md y ->
  smeared x0 (snd (power_of_2_loop fuel y md size))
             (fst (power_of_2_loop fuel y md size)).
Proof.
  induction fuel as [|fuel IH]; intros x0 y md size Hmd Hs; simpl; [exact Hs|].
  destruct (md <? size); [|exact Hs].
  apply IH; [lia | now apply smeared_step].
Qed.

Lemma power_of_2_loop_exit fuel : forall y md size,
  0 < md -> size - md < Z.of_nat fuel ->
  size <= snd (power_of_2_loop fuel y md size).
Proof.
  induction fuel as [|fuel IH]; intros y md size Hmd Hf; simpl; [simpl in Hf; lia|].
  destruct (Z.ltb_spec md size); [|simpl; lia].
  apply IH; lia.
Qed.

(** With the fuel [power_of_2] gives it the loop leaves through its
    guard. *)
Lemma power_of_2_fuel x size :
  size <= snd (power_of_2_loop (Z.to_nat size) x 1 size).
Proof. apply power_of_2_loop_exit; lia. Qed.

(** More fuel than [size] changes nothing: the loop is a total function. *)
Lemma power_of_2_loop_fuel fuel : forall k y md size,
  0 < md -> size - md < Z.of_nat fuel ->
  power_of_2_loop (fuel + k) y md size = power_of_2_loop fuel y md size.
Proof.
  induction fuel as [|fuel IH]; intros k y md size Hmd Hf.
  - simpl in Hf. destruct k; simpl; [reflexivity|].
    destruct (Z.ltb_spec md size); [lia | reflexivity].
  - simpl. destruct (Z.ltb_spec md size); [|reflexivity].
    apply IH; lia.
Qed.

(** The loop sees [size] only through its guard: every size from 17 to 32
    bytes gives the shifts 1, 2, 4, 8 and 16. *)
Lemma power_of_2_loop_17_32 x size size' :
  16 < size <= 32 -> 16 < size' <= 32 ->
  power_of_2_loop (Z.to_nat size) x 1 size
  = power_of_2_loop (Z.to_nat size') x 1 size'.
Proof.
  intros Hsize Hsize'.
  assert (Hk : exists k, Z.to_nat size = (6 + k)%nat)
    by (exists (Z.to_nat size - 6)%nat; lia).
  assert (Hk' : exists k, Z.to_nat size' = (6 + k)%nat)
    by (exists (Z.to_nat size' - 6)%nat; lia).
  destruct Hk as [k ->]. destruct Hk' as [k' ->].
  cbn [power_of_2_loop Nat.add].
  repeat match goal with
         | |- context [?a <? size] =>
             destruct (Z.ltb_spec a size); try lia
         | |- context [?a <? size'] =>
             destruct (Z.ltb_spec a size'); try lia
         end.
  reflexivity.
Qed.

Lemma getsizeof_small x : - 2 ^ 30 < x < 2 ^ 30 -> Sys.getsizeof x = 28.
Proof.
  intros Hx. unfold Sys.getsizeof, Sys.ndigits.
  destruct (Z.eqb_spec x 0); [reflexivity|].
  assert (Z.log2 (Z.abs x) < 30) by (apply Z.log2_lt_pow2; lia).
  assert (0 <= Z.log2 (Z.abs x)) by apply Z.log2_nonneg.
  rewrite Z.div_small by lia. reflexivity.
Qed.

Lemma getsizeof_medium x :
  2 ^ 30 <= Z.abs x < 2 ^ 60 -> Sys.getsizeof x = 32.
Proof.
  intros Hx. unfold Sys.getsizeof, Sys.ndigits.
  destruct (Z.eqb_spec x 0); [subst; simpl in Hx; lia|].
  assert (Z.log2 (Z.abs x) < 60) by (apply Z.log2_lt_pow2; lia).
  assert (30 <= Z.log2 (Z.abs x)) by (apply Z.log2_le_pow2; lia).
  replace (Z.log2 (Z.abs x) / 30) with 1; [reflexivity|].
  apply Z.div_unique with (r := Z.log2 (Z.abs x) - 30); lia.
Qed.

(** Below [2 ^ 60] in absolute value the loop runs the five shifts 1, 2, 4,
    8 and 16, so the result covers a window of 32 bits. *)
Lemma power_of_2_window x :
  Z.abs (x - 1) < 2 ^ 60 ->
  exists y, power_of_2 x = y + 1 /\ smeared (x - 1) 32 y.
Proof.
  intros Hx. unfold power_of_2.
  eexists; split; [reflexivity|].
  destruct (Z.lt_ge_cases (Z.abs (x - 1)) (2 ^ 30)) as [Hs | Hm].
  - rewrite getsizeof_small by lia.
    apply (power_of_2_loop_smeared (Z.to_nat 28) (x - 1) (x - 1) 1 28);
      [lia | apply smeared_init].
  - rewrite getsizeof_medium by lia.
    apply (power_of_2_loop_smeared (Z.to_nat 32) (x - 1) (x - 1) 1 32);
      [lia | apply smeared_init].
Qed.


(** The smear of a non-negative number that fits the window sets every bit
    up to its highest one. *)
Lemma smeared_nonneg x w y :
  0 < x -> Z.log2 x < w -> smeared x w y -> y = Z.ones (Z.log2 x + 1).
Proof.
  intros Hx Hw Hs.
  assert (Hl : 0 <= Z.log2 x) by apply Z.log2_nonneg.
  apply Z.bits_inj'; intros i Hi.
  rewrite Z.testbit_ones_nonneg by lia.
  destruct (Z.ltb_spec i (Z.log2 x + 1)) as [Hlt | Hge].
  - apply (Hs i Hi). exists (Z.log2 x - i); split; [lia|].
    replace (i + (Z.log2 x - i)) with (Z.log2 x) by lia.
    apply Z.bit_log2; exact Hx.
  - destruct (Z.testbit y i) eqn:Hy; [|reflexivity].
    apply (Hs i Hi) in Hy. destruct Hy as (j & Hj & Hb).
    rewrite Z.bits_above_log2 in Hb by lia. discriminate.
Qed.

Lemma smeared_zero w y : smeared 0 w y -> y = 0.
Proof.
  intros Hs. apply Z.bits_inj'; intros i Hi.
  rewrite Z.bits_0.
  destruct (Z.testbit y i) eqn:Hy; [|reflexivity].
  apply (Hs i Hi) in Hy. destruct Hy as (j & _ & Hb).
  rewrite Z.bits_0 in Hb. discriminate.
Qed.

(** The smear of a negative number above [- 2 ^ w] sets every bit. *)
Lemma smeared_neg x w y :
  0 < w -> - 2 ^ w < x < 0 -> smeared x w y -> y = -1.
Proof.
  intros Hw Hx Hs.
  assert (Hp : 0 < 2 ^ w) by (apply Z.pow_pos_nonneg; lia).
  assert (Hhigh : forall n, w <= n -> Z.testbit x n = true).
  { intros n Hn. apply Z.bits_above_log2_neg; [lia|].
    destruct (Z.eq_dec (Z.pred (- x)) 0) as [E | E].
    - rewrite E. simpl. lia.
    - apply Z.lt_le_trans with w; [|exact Hn].
      apply Z.log2_lt_pow2; lia. }
  apply Z.bits_inj'; intros i Hi.
  rewrite Z.bits_m1 by exact Hi.
  apply (Hs i Hi).
  destruct (Z.eq_dec i 0) as [-> | Hi0].
  - assert (Hm : 0 < x mod 2 ^ w).
    { pose proof (Z.mod_pos_bound x (2 ^ w) Hp) as Hb.
      destruct (Z.eq_dec (x mod 2 ^ w) 0) as [E | E]; [|lia].
      apply Z.mod_divide in E; [|lia].
      destruct E as [q Hq]. remember (2 ^ w) as P. clear HeqP Hhigh Hb.
      assert (q < 0) by nia. assert (q <= -1) by lia. nia. }
    exists (Z.log2 (x mod 2 ^ w)).
    assert (Hlog : Z.log2 (x mod 2 ^ w) < w).
    { apply Z.log2_lt_pow2; [exact Hm|].
      apply Z.mod_pos_bound; exact Hp. }
    pose proof (Z.log2_nonneg (x mod 2 ^ w)).
    split; [lia|]. simpl.
    rewrite <- (Z.mod_pow2_bits_low x w) by lia.
    apply Z.bit_log2; exact Hm.
  - exists (w - 1); split; [lia|]. apply Hhigh; lia.
Qed.

(** Up to [2 ^ 32] the function does what its docstring says. *)
Lemma power_of_2_upto_2_32 requested :
  1 <= requested <= 2 ^ 32 ->
  is_pow2 (power_of_2 requested)
  /\ requested <= power_of_2 requested
  /\ power_of_2 requested / 2 < requested
  /\ (forall k, 0 <= k -> requested <= 2 ^ k -> power_of_2 requested <= 2 ^ k).
Proof.
  intros Hr.
  destruct (power_of_2_window requested) as (y & Hy & Hs); [lia|].
  rewrite Hy.
  destruct (Z.eq_dec requested 1) as [-> | Hne].
  - apply smeared_zero in Hs. subst y. simpl.
    split; [exists 0; split; [lia | reflexivity]|].
    split; [lia|]. split; [reflexivity|].
    intros k Hk _. assert (0 < 2 ^ k) by (apply Z.pow_pos_nonneg; lia). lia.
  - assert (Hx : 0 < requested - 1) by lia.
    assert (Hlog : Z.log2 (requested - 1) < 32)
      by (apply Z.log2_lt_pow2; lia).
    pose proof (Z.log2_nonneg (requested - 1)) as Hl.
    pose proof (Z.log2_spec (requested - 1) Hx) as [Hlo Hhi].
    apply smeared_nonneg in Hs; [|exact Hx|exact Hlog].
    subst y. rewrite Z.ones_equiv.
    replace (Z.pred (2 ^ (Z.log2 (requested - 1) + 1)) + 1)
      with (2 ^ Z.succ (Z.log2 (requested - 1))) by (unfold Z.succ; lia).
    split; [|split; [|split]].
    + exists (Z.succ (Z.log2 (requested - 1))); split; [lia | reflexivity].
    + lia.
    + rewrite Z.pow_succ_r by exact Hl.
      rewrite Z.mul_comm, Z.div_mul by lia. lia.
    + intros k Hk Hle.
      destruct (Z.lt_ge_cases (Z.log2 (requested - 1)) k) as [Hlt | Hge].
      * apply Z.pow_le_mono_r; lia.
      * assert (2 ^ k <= 2 ^ Z.log2 (requested - 1))
          by (apply Z.pow_le_mono_r; lia).
        lia.
Qed.

(** C6.  [power_of_2] does not return a power of two for every requested
    size of at least 1: for [2 ^ 32 + 1] it returns [2 ^ 33 - 1], which is
    neither a power of two nor the smallest one above the request
    ([2 ^ 33]).  The loop bound is the size of the integer object in
    bytes, so the shifts stop at a window of 32 bits. *)
Theorem power_of_2_beyond_window :
  power_of_2 (2 ^ 32 + 1) = 2 ^ 33 - 1 /\ ~ is_pow2 (power_of_2 (2 ^ 32 + 1)).
Proof.
  assert (E : power_of_2 (2 ^ 32 + 1) = 2 ^ 33 - 1) by (vm_compute; reflexivity).
  split; [exact E|]. rewrite E.
  intros (k & Hk & Hp).
  destruct (Z.eq_dec k 0) as [-> | Hk0]; [vm_compute in Hp; discriminate|].
  replace k with (Z.succ (k - 1)) in Hp by lia.
  rewrite Z.pow_succ_r in Hp by lia.
  change (2 ^ 33 - 1) with (2 * 4294967295 + 1) in Hp. lia.
Qed.

(** Nothing clamps a non-positive request: [x - 1] is negative, the
    shifts fill every bit, and the function returns [-1 + 1]. *)
Lemma power_of_2_nonpositive_zero requested :
  - 2 ^ 32 + 1 < requested <= 0 -> power_of_2 requested = 0.
Proof.
  intros Hr.
  destruct (power_of_2_window requested) as (y & Hy & Hs); [lia|].
  apply smeared_neg in Hs; [|lia|lia].
  rewrite Hy, Hs. reflexivity.
Qed.

(** C7.  [power_of_2] does not turn a non-positive request into 1: for 0
    it returns 0, which is not the next power of two and no power of two
    at all.  A [Tailer] asked for a chunk size of 0 keeps 0 as its chunk
    size: on a stream that holds two lines [tail] then raises
    [IndexError] and [head] returns no line. *)
Theorem power_of_2_zero :
  power_of_2 0 = 0
  /\ power_of_2 0 <> 1
  /\ ~ is_pow2 (power_of_2 0)
  /\ fst (Tailer.init 0 false (file two_lines)) = Ok (Tailer.mk 0)
  /\ fst (tail 1 0 (file two_lines)) = Raise IndexError
  /\ fst (head 1 0 (file two_lines)) = Ok [].
Proof.
  assert (E : power_of_2 0 = 0) by (apply power_of_2_nonpositive_zero; lia).
  split; [exact E|]. split; [rewrite E; discriminate|].
  split.
  - rewrite E. intros (k & Hk & Hp).
    assert (0 < 2 ^ k) by (apply Z.pow_pos_nonneg; lia). lia.
  - split; [|split]; vm_compute; reflexivity.
Qed.


(** X17.  For a requested size from 1 to [2 ^ 32], [power_of_2] returns
    the smallest power of two that is not below the request: the result is
    a power of two, it is at least the request, its half is below the
    request, and a request that is a power of two is returned as it is. *)
Theorem power_of_2_next_power requested :
  1 <= requested <= 2 ^ 32 ->
  is_pow2 (power_of_2 requested)
  /\ requested <= power_of_2 requested
  /\ power_of_2 requested / 2 < requested
  /\ (forall k, 0 <= k -> requested <= 2 ^ k -> power_of_2 requested <= 2 ^ k)
  /\ (is_pow2 requested -> power_of_2 requested = requested).
Proof.
  intros Hr.
  destruct (power_of_2_upto_2_32 requested Hr) as (Hp & Hge & Hhalf & Hleast).
  repeat split; try assumption.
  intros (k & Hk & E).
  specialize (Hleast k Hk). lia.
Qed.

Lemma power_of_2_next_power_witness :
  power_of_2 1000 / 2 < 1000 /\ 1000 <= power_of_2 1000.
Proof.
  destruct (power_of_2_next_power 1000 ltac:(lia)) as (_ & Hge & Hhalf & _).
  split; assumption.
Defined.

(** ** The stream primitives *)

Lemma read_spec self n s :
  exists got,
    Tailer.read self n s
      = (Ok (len got, got), mkStream (s_data s) (s_pos s + length got))
    /\ (s_pos s + length got <= Nat.max (s_pos s) (length (s_data s)))%nat
    /\ (n <> 0 -> got = [] -> (length (s_data s) <= s_pos s)%nat)
    /\ (0 <= n -> (length got <= Z.to_nat n)%nat).
Proof.
  unfold Tailer.read, Stream.read, bind, ret.
  set (rest := skipn (s_pos s) (s_data s)).
  assert (Hrest : length rest = (length (s_data s) - s_pos s)%nat)
    by (unfold rest; apply length_skipn).
  destruct (Z.ltb_spec n 0) as [Hn | Hn].
  - exists rest; split; [reflexivity|]. split; [lia|]. split; [|lia].
    intros _ E. rewrite E in Hrest. simpl in Hrest. lia.
  - exists (firstn (Z.to_nat n) rest); split; [reflexivity|].
    rewrite length_firstn. split; [lia|]. split; [|lia].
    intros Hn0 E. apply (f_equal (@length byte)) in E.
    rewrite length_firstn in E. simpl in E. lia.
Qed.

Lemma seek_set_spec self offset s r s' :
  Tailer.seek self offset SEEK_SET s = (r, s') ->
  (offset < 0 /\ r = Raise ValueError /\ s' = s)
  \/ (0 <= offset /\ r = Ok offset
      /\ s' = mkStream (s_data s) (Z.to_nat offset)).
Proof.
  unfold Tailer.seek, Stream.seek.
  destruct (Z.ltb_spec offset 0); intros E; inversion E; subst; auto.
Qed.

(** [seek] then [tell] never returns the sentinel. *)
Lemma seek_tell_not_sentinel self offset s s' :
  (Tailer.seek self offset SEEK_SET ;;; Tailer.tell self) s = (Ok (-1), s')
  -> False.
Proof.
  unfold bind. destruct (Tailer.seek self offset SEEK_SET s) as [r s1] eqn:Hs.
  apply seek_set_spec in Hs.
  destruct Hs as [(_ & -> & _) | (_ & -> & _)]; [discriminate|].
  unfold Tailer.tell, Stream.tell. intros E. inversion E. lia.
Qed.

Lemma getitem_state data i s r s' :
  Tailer.getitem data i s = (r, s') -> s' = s.
Proof.
  unfold Tailer.getitem, raise, ret.
  destruct (_ <? 0); [intros E; inversion E; reflexivity|].
  destruct (nth_error _ _); intros E; inversion E; reflexivity.
Qed.

(** ** [next] *)

Lemma getitem_exn data i s e s' :
  Tailer.getitem data i s = (Raise e, s') -> e = IndexError.
Proof.
  unfold Tailer.getitem, raise, ret.
  destruct (_ <? 0); [intros E; inversion E; reflexivity|].
  destruct (nth_error _ _); intros E; inversion E; reflexivity.
Qed.

(** What the peek returns: the chunk grows by the one byte read, or the
    cursor is back where it was; it raises nothing but [IndexError]. *)
Lemma next_peek_spec self data_len data s r s' :
  Tailer.next_peek self data_len data s = (r, s') ->
  match r with
  | Ok (dl, d) =>
      s_data s' = s_data s
      /\ Z.of_nat (s_pos s') = Z.of_nat (s_pos s) + (dl - data_len)
      /\ 0 <= dl - data_len
      /\ ((s_pos s <= length (s_data s))%nat ->
          (s_pos s' <= length (s_data s))%nat)
  | Raise e => e = IndexError
  end.
Proof.
  unfold Tailer.next_peek, bind.
  destruct (Tailer.in_terminators [CR; LF]).
  - destruct (Tailer.getitem data (-1) s) as [[b0|e] s0] eqn:Hg.
    2:{ intros E; inversion E; subst. eapply getitem_exn; eassumption. }
    apply getitem_state in Hg. subst s0.
    unfold ret at 1. cbv beta iota.
    destruct (Byte.eqb b0 CR).
    + unfold Tailer.tell at 1, Stream.tell. cbv beta iota.
      destruct (read_spec self 1 s) as (got & Hread & Hbound & _ & Hle).
      specialize (Hle ltac:(lia)). change (Z.to_nat 1) with 1%nat in Hle.
      rewrite Hread. cbv beta iota.
      destruct (len got =? 0) eqn:Hlen.
      * unfold ret at 1. cbv beta iota.
        unfold Tailer.seek, Stream.seek.
        destruct (Z.ltb_spec (Z.of_nat (s_pos s)) 0); [lia|].
        unfold ret. intros E; inversion E; subst; simpl.
        rewrite Nat2Z.id. repeat split; lia.
      * destruct (Tailer.getitem got 0 _) as [[b1|e] s1] eqn:Hg1.
        2:{ intros E; inversion E; subst. eapply getitem_exn; eassumption. }
        apply getitem_state in Hg1. subst s1.
        assert (Hone : length got = 1%nat)
          by (apply Z.eqb_neq in Hlen; unfold len in Hlen; lia).
        unfold ret at 1. cbv beta iota.
        destruct (Byte.eqb b1 LF).
        -- unfold ret. intros E; inversion E; subst; simpl.
           repeat split; lia.
        -- unfold Tailer.seek, Stream.seek.
           destruct (Z.ltb_spec (Z.of_nat (s_pos s)) 0); [lia|].
           unfold ret. intros E; inversion E; subst; simpl.
           rewrite Nat2Z.id. repeat split; lia.
    + unfold ret. intros E; inversion E; subst. repeat split; lia.
  - unfold ret. intros E; inversion E; subst. repeat split; lia.
Qed.

(** The loop of [next] under its invariant [tell() = where + offset]: it
    never runs out of fuel, and when it returns the sentinel every byte
    has been consumed. *)
Lemma next_loop_spec fuel : forall self where_ offset s r s',
  Z.of_nat (s_pos s) = where_ + offset ->
  (length (s_data s) - s_pos s < fuel)%nat ->
  Tailer.next_loop fuel self where_ offset s = (r, s') ->
  r <> Raise OutOfFuel
  /\ (r = Ok (-1) -> Tailer.size self <> 0 ->
      s_data s' = s_data s
      /\ (length (s_data s) <= s_pos s')%nat
      /\ ((s_pos s <= length (s_data s))%nat ->
          s_pos s' = length (s_data s))).
Proof.
  induction fuel as [|fuel IH]; intros self where_ offset s r s' Hinv Hfuel;
    [lia|].
  simpl. unfold bind at 1.
  destruct (read_spec self (Tailer.size self) s)
    as (got & Hread & Hbound & Hempty & _).
  rewrite Hread. cbv beta iota.
  destruct (Z.eqb_spec (len got) 0) as [Hz | Hnz].
  - unfold ret. intros E; inversion E; subst; simpl.
    split; [discriminate|]. intros _ Hsize.
    assert (got = []) as -> by (destruct got; [reflexivity | discriminate]).
    simpl. rewrite Nat.add_0_r.
    specialize (Hempty Hsize eq_refl). repeat split; lia.
  - unfold bind at 1.
    destruct (Tailer.next_peek self (len got) got _) as [[[dl d]|e] s2] eqn:Hpeek;
      apply next_peek_spec in Hpeek; simpl in Hpeek.
    2:{ intros E; inversion E; subst. split; discriminate. }
    destruct Hpeek as (Hdata & Hpos & Hgrow & Hin).
    assert (Hgot : (0 < length got)%nat)
      by (destruct got; [contradiction Hnz; reflexivity | simpl; lia]).
    unfold len in *.
    destruct (Tailer.next_scan self d 0) as [[data_where terminator]|].
    + intros E. split.
      * unfold bind in E.
        destruct (Tailer.seek _ _ _ _) as [r1 s3] eqn:Hs in E.
        apply seek_set_spec in Hs.
        destruct Hs as [(_ & -> & _) | (_ & -> & _)];
          [inversion E; discriminate|].
        unfold Tailer.tell, Stream.tell in E. inversion E. discriminate.
      * intros ->. exfalso. eapply seek_tell_not_sentinel; exact E.
    + unfold bind at 1.
      destruct (Tailer.seek self (where_ + (offset + dl)) SEEK_SET s2)
        as [r1 s3] eqn:Hs.
      apply seek_set_spec in Hs.
      destruct Hs as [(Hneg & -> & ->) | (Hnn & -> & ->)].
      * intros E; inversion E; subst. split; discriminate.
      * intros E. apply IH in E; simpl in *.
        -- destruct E as [Hfuel' Hsent]. split; [exact Hfuel'|].
           intros Hr Hsize. destruct (Hsent Hr Hsize) as (Hd & Hlen & Hend).
           rewrite Hdata in *. repeat split; [exact Hd | exact Hlen |].
           intros Hle. apply Hend. lia.
        -- lia.
        -- rewrite Hdata. lia.
Qed.

(** ** [previous] *)

Lemma term_len method t :
  Tailer.term method = Some t -> 1 <= len t <= 2.
Proof.
  unfold Tailer.term, Tailer._terminators. simpl.
  repeat (destruct (method _); [intros E; inversion E; subst; cbv; split; discriminate|]).
  discriminate.
Qed.

Lemma previous_peek_spec self where_ offset data_len data s r s' :
  data_len = len data ->
  Tailer.previous_peek self where_ offset data_len data s = (r, s') ->
  match r with
  | Ok (dl, d) => dl = len d /\ 1 <= data_len <= dl
  | Raise e => e = IndexError \/ e = ValueError
  end.
Proof.
  intros Hlen. unfold Tailer.previous_peek, bind.
  change (Tailer.in_terminators [CR; LF]) with true. cbv beta iota.
  destruct (Tailer.getitem data 0 s) as [[b0|e] s0] eqn:Hg.
  2:{ intros E; inversion E; subst. left. eapply getitem_exn; eassumption. }
  assert (Hne : 1 <= len data).
  { unfold Tailer.getitem in Hg. simpl in Hg.
    destruct data; [discriminate | unfold len; simpl; lia]. }
  apply getitem_state in Hg. subst s0.
  unfold ret at 1. cbv beta iota.
  destruct (Byte.eqb b0 LF).
  2:{ unfold ret. intros E; inversion E; subst. split; [reflexivity | lia]. }
  unfold Tailer.tell at 1, Stream.tell. cbv beta iota.
  destruct (_ <? _).
  2:{ unfold ret. intros E; inversion E; subst. split; [reflexivity | lia]. }
  destruct (Tailer.seek self _ SEEK_SET s) as [r1 s1] eqn:Hs.
  apply seek_set_spec in Hs.
  destruct Hs as [(_ & -> & ->) | (_ & -> & ->)].
  { intros E; inversion E; subst. right; reflexivity. }
  destruct (read_spec self 1 (mkStream (s_data s)
              (Z.to_nat (where_ - offset - data_len - 1))))
    as (got & Hread & _).
  rewrite Hread. cbv beta iota.
  destruct (Tailer.getitem got 0 _) as [[b1|e] s2] eqn:Hg1.
  2:{ intros E; inversion E; subst. left. eapply getitem_exn; eassumption. }
  apply getitem_state in Hg1. subst s2.
  destruct (Byte.eqb b1 CR);
    (destruct (Tailer.seek self _ SEEK_SET _) as [r3 s3] eqn:Hs3;
     apply seek_set_spec in Hs3;
     destruct Hs3 as [(_ & -> & ->) | (_ & -> & ->)];
     [intros E; inversion E; subst; right; reflexivity|]);
    unfold ret; intros E; inversion E; subst.
  - split; [unfold len; simpl length; lia | lia].
  - split; [reflexivity | lia].
Qed.

(** The backward scan returns a position [tell()] reported, and its fuel
    covers the window. *)
Lemma previous_scan_spec fuel : forall self data data_len where_ offset
    data_where s r s',
  data_where <= Z.of_nat fuel ->
  Tailer.previous_scan fuel self data data_len where_ offset data_where s
    = (r, s') ->
  match r with
  | Ok (Some p) => 0 <= p
  | Ok None => True
  | Raise e => e = ValueError
  end.
Proof.
  induction fuel as [|fuel IH];
    intros self data data_len where_ offset data_where s r s' Hfuel.
  - simpl. destruct (Z.ltb_spec 0 data_where); [simpl in Hfuel; lia|].
    unfold ret. intros E; inversion E; exact I.
  - simpl. destruct (Z.ltb_spec 0 data_where) as [Hpos | Hnp].
    2:{ unfold ret. intros E; inversion E; exact I. }
    destruct (Tailer.suffix self _) as [terminator|] eqn:Hsuf.
    + apply term_len in Hsuf.
      destruct (_ && _).
      * apply IH. lia.
      * unfold bind.
        destruct (Tailer.seek self _ SEEK_SET s) as [r1 s1] eqn:Hs.
        apply seek_set_spec in Hs.
        destruct Hs as [(_ & -> & ->) | (_ & -> & ->)].
        -- intros E; inversion E; reflexivity.
        -- unfold Tailer.tell, Stream.tell, ret.
           intros E; inversion E. lia.
    + apply IH. lia.
Qed.

Lemma previous_loop_spec fuel : forall self where_ offset s r s',
  0 <= where_ -> (where_ = 0 -> offset = 0) ->
  Z.max 0 (where_ + Z.max 0 (- Tailer.size self) + 1 - offset)
    < Z.of_nat fuel ->
  Tailer.previous_loop fuel self where_ offset s = (r, s') ->
  match r with
  | Ok p => (p = -1 /\ where_ = 0 /\ s' = s) \/ (0 <= p /\ where_ <> 0)
  | Raise e => e = IndexError \/ e = ValueError
  end.
Proof.
  induction fuel as [|fuel IH]; intros self where_ offset s r s' Hw Hoff Hfuel;
    [simpl in Hfuel; lia|].
  simpl. destruct (Z.eqb_spec offset where_) as [Heq | Hne].
  - destruct (Z.eqb_spec where_ 0) as [Hz | Hnz].
    + unfold ret. intros E; inversion E; subst. left; auto.
    + unfold bind.
      destruct (Tailer.seek self 0 SEEK_SET s) as [r1 s1] eqn:Hs.
      apply seek_set_spec in Hs.
      destruct Hs as [(? & _) | (_ & -> & ->)]; [lia|].
      unfold ret. intros E; inversion E; subst. right; split; [lia | exact Hnz].
  - set (read_size := if Tailer.size self <=? where_
                      then Tailer.size self else where_).
    assert (Hrs : - Z.max 0 (- Tailer.size self) <= read_size)
      by (unfold read_size; destruct (Z.leb_spec (Tailer.size self) where_); lia).
    unfold bind at 1.
    destruct (Tailer.seek self _ SEEK_SET s) as [r1 s1] eqn:Hs.
    apply seek_set_spec in Hs.
    destruct Hs as [(_ & -> & ->) | (Hseek & -> & ->)].
    { intros E; inversion E; subst. right; reflexivity. }
    unfold bind at 1.
    destruct (read_spec self read_size
                (mkStream (s_data s) (Z.to_nat (where_ - offset - read_size))))
      as (got & Hread & _).
    rewrite Hread. cbv beta iota.
    unfold bind at 1.
    destruct (Tailer.previous_peek self where_ offset (len got) got _)
      as [[[dl d]|e] s2] eqn:Hpeek;
      apply previous_peek_spec in Hpeek; try reflexivity.
    2:{ intros E; inversion E; subst. exact Hpeek. }
    destruct Hpeek as (Hdl & Hone).
    unfold bind at 1.
    destruct (Tailer.previous_scan _ self d dl where_ offset dl s2)
      as [[[p|]|e] s3] eqn:Hscan;
      apply previous_scan_spec in Hscan;
      try (subst dl; unfold len; lia).
    + unfold ret. intros E; inversion E; subst. right. split; [exact Hscan|].
      intros Hz. apply Hne. rewrite Hz. apply Hoff. exact Hz.
    + assert (Hwnz : where_ <> 0)
        by (intros Hz; apply Hne; rewrite Hz; apply Hoff; exact Hz).
      intros E. apply IH in E; [| exact Hw | intros Hz; contradiction | lia].
      destruct r as [p|e]; [|exact E].
      destruct E as [(_ & Hz & _) | E]; [contradiction | right; exact E].
    + intros E; inversion E; subst. right; reflexivity.
Qed.

(** Neither scan runs out of fuel. *)
Lemma next_total self s : fst (Tailer.next self s) <> Raise OutOfFuel.
Proof.
  unfold Tailer.next, bind, Stream.tell.
  destruct (Tailer.next_loop _ self _ 0 s) as [r s'] eqn:E.
  apply next_loop_spec in E; [simpl; tauto | lia | lia].
Qed.

Lemma previous_total self s : fst (Tailer.previous self s) <> Raise OutOfFuel.
Proof.
  unfold Tailer.previous, bind, Stream.tell.
  destruct (Tailer.previous_loop _ self _ 0 s) as [r s'] eqn:E.
  apply previous_loop_spec in E; [|lia|reflexivity|lia].
  simpl. destruct r as [p|e]; [discriminate|].
  destruct E as [-> | ->]; discriminate.
Qed.




(** ** Progress of the scans, and the loops of [head] and [tail] *)

Lemma startswith_length data t :
  startswith data t = true -> (length t <= length data)%nat.
Proof.
  revert data; induction t as [|y t IH]; intros data; simpl; [lia|].
  destruct data as [|x data]; [discriminate|].
  intros H. apply andb_true_iff in H. destruct H as [_ H].
  apply IH in H. simpl. lia.
Qed.

Lemma next_scan_spec self rest : forall k data_where terminator,
  Tailer.next_scan self rest k = Some (data_where, terminator) ->
  k <= data_where
  /\ data_where + len terminator <= k + len rest
  /\ 1 <= len terminator.
Proof.
  induction rest as [|x rest IH]; intros k data_where terminator;
    [discriminate|].
  cbn [Tailer.next_scan].
  destruct (Tailer.prefix self (x :: rest)) as [t|] eqn:Hp.
  - intros E; inversion E; subst.
    pose proof (term_len _ _ Hp) as Hlen.
    unfold Tailer.prefix, Tailer.term in Hp. apply find_some in Hp.
    destruct Hp as [_ Hp]. apply startswith_length in Hp.
    unfold len in *. lia.
  - intros E. apply IH in E. unfold len in *. simpl length. lia.
Qed.

Lemma next_peek_len self data s dl d s' :
  Tailer.next_peek self (len data) data s = (Ok (dl, d), s') -> dl = len d.
Proof.
  unfold Tailer.next_peek, bind, ret.
  destruct (Tailer.in_terminators [CR; LF]).
  - destruct (Tailer.getitem data (-1) s) as [[b0|e] s0]; [|discriminate].
    destruct (Byte.eqb b0 CR); [|intros E; inversion E; reflexivity].
    destruct (Tailer.tell self s0) as [[tw|e] s1]; [|discriminate].
    destruct (Tailer.read self 1 s1) as [[[l td]|e] s2]; [|discriminate].
    destruct (l =? 0).
    + destruct (Tailer.seek self tw SEEK_SET s2) as [[u|e] s3];
        intros E; inversion E; reflexivity.
    + destruct (Tailer.getitem td 0 s2) as [[b1|e] s3]; [|discriminate].
      destruct (Byte.eqb b1 LF).
      * intros E; inversion E. unfold len. rewrite length_app. simpl. lia.
      * destruct (Tailer.seek self tw SEEK_SET s3) as [[u|e] s4];
          intros E; inversion E; reflexivity.
  - intros E; inversion E; reflexivity.
Qed.

(** A position [next] returns lies after the one it started from, and
    inside the stream when it started there; the cursor is at it. *)
Lemma next_loop_found fuel : forall self where_ offset s p s',
  Z.of_nat (s_pos s) = where_ + offset ->
  Tailer.next_loop fuel self where_ offset s = (Ok p, s') ->
  s_data s' = s_data s
  /\ (p = -1
      \/ (p = Z.of_nat (s_pos s') /\ (s_pos s < s_pos s')%nat
          /\ ((s_pos s <= length (s_data s))%nat ->
              (s_pos s' <= length (s_data s))%nat))).
Proof.
  induction fuel as [|fuel IH]; intros self where_ offset s p s' Hinv;
    [discriminate|].
  simpl. unfold bind at 1.
  destruct (read_spec self (Tailer.size self) s)
    as (got & Hread & Hbound & _ & _).
  rewrite Hread. cbv beta iota.
  destruct (Z.eqb_spec (len got) 0) as [Hz | Hnz].
  - unfold ret. intros E; inversion E; subst; simpl. auto.
  - unfold bind at 1.
    destruct (Tailer.next_peek self (len got) got _) as [[[dl d]|e] s2] eqn:Hpeek;
      [|discriminate].
    pose proof (next_peek_len _ _ _ _ _ _ Hpeek) as Hdl.
    apply next_peek_spec in Hpeek; simpl in Hpeek.
    destruct Hpeek as (Hdata & Hpos & Hgrow & Hin).
    assert (Hgot : (0 < length got)%nat)
      by (destruct got; [contradiction Hnz; reflexivity | simpl; lia]).
    destruct (Tailer.next_scan self d 0) as [[data_where terminator]|] eqn:Hscan.
    + apply next_scan_spec in Hscan. destruct Hscan as (Hdw & Hend & Ht).
      unfold bind.
      destruct (Tailer.seek self _ SEEK_SET s2) as [r1 s3] eqn:Hs.
      apply seek_set_spec in Hs.
      destruct Hs as [(_ & -> & ->) | (Hnn & -> & ->)]; [discriminate|].
      unfold Tailer.tell, Stream.tell.
      intros E; inversion E; subst p s'; simpl.
      split; [exact Hdata|]. right. unfold len in *.
      split; [reflexivity|]. split; [lia|]. intros Hle.
      specialize (Hin ltac:(lia)). lia.
    + unfold bind at 1.
      destruct (Tailer.seek self (where_ + (offset + dl)) SEEK_SET s2)
        as [r1 s3] eqn:Hs.
      apply seek_set_spec in Hs.
      destruct Hs as [(Hneg & -> & ->) | (Hnn & -> & ->)]; [discriminate|].
      intros E. apply IH in E; simpl in *; [|unfold len in *; lia].
      destruct E as [Hd Hcases]. rewrite Hdata in *.
      split; [exact Hd|].
      destruct Hcases as [-> | (Hp & Hlt & Hle)]; [left; reflexivity|].
      right. unfold len in *. split; [exact Hp|]. split; [lia|].
      intros Hs. apply Hle. specialize (Hin ltac:(lia)). lia.
Qed.

Lemma head_loop_total fuel : forall self lines s,
  (s_pos s <= length (s_data s))%nat ->
  (length (s_data s) - s_pos s < fuel)%nat ->
  fst (Tailer.head_loop fuel self lines s) <> Raise OutOfFuel.
Proof.
  induction fuel as [|fuel IH]; intros self lines s Hin Hfuel; [lia|].
  simpl. destruct (lines =? 0); [discriminate|].
  unfold bind.
  destruct (Tailer.next self s) as [[p|e] s1] eqn:Hnext.
  - destruct (Z.eqb_spec p (-1)) as [Hp | Hp]; [discriminate|].
    unfold Tailer.next, bind, Stream.tell in Hnext.
    apply next_loop_found in Hnext; [|lia].
    destruct Hnext as [Hd [? | (_ & Hlt & Hle)]]; [contradiction|].
    apply IH; rewrite Hd; [apply Hle; exact Hin | lia].
  - pose proof (next_total self s) as Ht. rewrite Hnext in Ht.
    simpl in *. intros E; apply Ht; inversion E; reflexivity.
Qed.

(** [head] never runs out of fuel. *)
Lemma head_total self lines s :
  fst (Tailer.head self lines s) <> Raise OutOfFuel.
Proof.
  assert (Hloop : fst (Tailer.head_loop (S (length (s_data s))) self lines
                         (mkStream (s_data s) 0)) <> Raise OutOfFuel)
    by (apply head_loop_total; simpl; lia).
  unfold Tailer.head. remember (S (length (s_data s))) as fuel eqn:Hfuel.
  clear Hfuel. unfold bind at 1.
  unfold Tailer.seek at 1, Stream.seek. change (0 <? 0) with false.
  cbv beta iota. unfold bind at 1. change (Z.to_nat 0) with 0%nat.
  destruct (Tailer.head_loop fuel self lines _) as [[u|e] s1].
  2:{ simpl in *. intros E; apply Hloop; inversion E; reflexivity. }
  unfold bind, Tailer.tell, Stream.tell, Tailer.seek, Stream.seek,
    Stream.read, ret.
  simpl. discriminate.
Qed.

Lemma previous_peek_data self where_ offset data_len data s dl d s' :
  Tailer.previous_peek self where_ offset data_len data s = (Ok (dl, d), s')
  -> s_data s' = s_data s.
Proof.
  unfold Tailer.previous_peek, bind.
  destruct (Tailer.in_terminators [CR; LF]).
  2:{ unfold ret. intros E; inversion E; reflexivity. }
  destruct (Tailer.getitem data 0 s) as [[b0|e] s0] eqn:Hg; [|discriminate].
  apply getitem_state in Hg. subst s0.
  unfold ret at 1. cbv beta iota.
  destruct (Byte.eqb b0 LF);
    [|unfold ret; intros E; inversion E; reflexivity].
  unfold Tailer.tell at 1, Stream.tell. cbv beta iota.
  destruct (_ <? _); [|unfold ret; intros E; inversion E; reflexivity].
  destruct (Tailer.seek self _ SEEK_SET s) as [r1 s1] eqn:Hs.
  apply seek_set_spec in Hs.
  destruct Hs as [(_ & -> & ->) | (_ & -> & ->)]; [discriminate|].
  destruct (read_spec self 1 (mkStream (s_data s)
              (Z.to_nat (where_ - offset - data_len - 1))))
    as (got & Hread & _).
  rewrite Hread. cbv beta iota.
  destruct (Tailer.getitem got 0 _) as [[b1|e] s2] eqn:Hg1; [|discriminate].
  apply getitem_state in Hg1. subst s2.
  destruct (Byte.eqb b1 CR);
    (destruct (Tailer.seek self _ SEEK_SET _) as [r3 s3] eqn:Hs3;
     apply seek_set_spec in Hs3;
     destruct Hs3 as [(_ & -> & ->) | (_ & -> & ->)]; [discriminate|]);
    unfold ret; intros E; inversion E; reflexivity.
Qed.

(** Where the backward scan stops: at a terminator that is not the one
    closing the current line. *)
Lemma previous_scan_found fuel : forall self data data_len where_ offset
    data_where s r s',
  Tailer.previous_scan fuel self data data_len where_ offset data_where s
    = (Ok r, s') ->
  match r with
  | Some p =>
      exists dw, 0 < dw <= data_where
        /\ ~ (offset = 0 /\ dw = data_len)
        /\ p = where_ - offset - (data_len - dw)
        /\ 0 <= p
        /\ s' = mkStream (s_data s) (Z.to_nat p)
  | None => s' = s
  end.
Proof.
  induction fuel as [|fuel IH];
    intros self data data_len where_ offset data_where s r s'.
  - simpl. destruct (0 <? data_where); [discriminate|].
    unfold ret. intros E; inversion E; reflexivity.
  - simpl. destruct (Z.ltb_spec 0 data_where) as [Hpos | Hnp].
    2:{ unfold ret. intros E; inversion E; reflexivity. }
    destruct (Tailer.suffix self _) as [terminator|] eqn:Hsuf.
    + apply term_len in Hsuf.
      destruct (Z.eqb_spec offset 0) as [Ho | Ho];
        destruct (Z.eqb_spec data_where data_len) as [Hd | Hd]; simpl.
      1:{ intros E. apply IH in E. destruct r as [p|]; [|exact E].
          destruct E as (dw & Hdw & Hrest). exists dw. split; [lia | exact Hrest]. }
      all: unfold bind;
        destruct (Tailer.seek self _ SEEK_SET s) as [r1 s1] eqn:Hs;
        apply seek_set_spec in Hs;
        destruct Hs as [(_ & -> & ->) | (Hnn & -> & ->)]; [discriminate|];
        unfold Tailer.tell, Stream.tell, ret; simpl;
        intros E; inversion E;
        exists data_where; rewrite Z2Nat.id by lia;
        repeat split; try lia; rewrite Nat2Z.id; reflexivity.
    + intros E. apply IH in E. destruct r as [p|]; [|exact E].
      destruct E as (dw & Hdw & Hrest). exists dw. split; [lia | exact Hrest].
Qed.

(** A position [previous] returns lies before the one it started from;
    the cursor is at it. *)
Lemma previous_loop_found fuel : forall self where_ offset s p s',
  0 <= offset ->
  Tailer.previous_loop fuel self where_ offset s = (Ok p, s') ->
  p <> -1 ->
  s_data s' = s_data s /\ s_pos s' = Z.to_nat p /\ 0 <= p < where_.
Proof.
  induction fuel as [|fuel IH]; intros self where_ offset s p s' Hoff;
    [discriminate|].
  simpl. destruct (Z.eqb_spec offset where_) as [Heq | Hne].
  - destruct (Z.eqb_spec where_ 0) as [Hz | Hnz].
    + unfold ret. intros E; inversion E; subst. contradiction.
    + unfold bind, Tailer.seek, Stream.seek. simpl. unfold ret.
      intros E; inversion E; subst. intros _. simpl. repeat split; lia.
  - unfold bind at 1.
    destruct (Tailer.seek self _ SEEK_SET s) as [r1 s1] eqn:Hs.
    apply seek_set_spec in Hs.
    destruct Hs as [(_ & -> & ->) | (Hseek & -> & ->)]; [discriminate|].
    unfold bind at 1.
    match goal with
    | |- context [Tailer.read self ?n ?st] =>
        destruct (read_spec self n st) as (got & Hread & _); rewrite Hread
    end.
    cbv beta iota. unfold bind at 1.
    destruct (Tailer.previous_peek self where_ offset (len got) got _)
      as [[[dl d]|e] s2] eqn:Hpeek; [|discriminate].
    pose proof (previous_peek_data _ _ _ _ _ _ _ _ _ Hpeek) as Hdata.
    apply previous_peek_spec in Hpeek; [|reflexivity].
    destruct Hpeek as (Hdl & Hone). simpl in Hdata.
    unfold bind at 1.
    destruct (Tailer.previous_scan _ self d dl where_ offset dl s2)
      as [[[q|]|e] s3] eqn:Hscan; [| |discriminate];
      apply previous_scan_found in Hscan.
    + destruct Hscan as (dw & Hdw & Hnot & Hq & Hnn & Hs3).
      unfold ret. intros E; inversion E; subst p s'. intros _.
      subst s3. simpl. split; [exact Hdata|]. split; [reflexivity|].
      split; [exact Hnn|]. subst q.
      destruct (Z.eq_dec offset 0) as [Ho | Ho]; [|lia].
      assert (dw <> dl) by tauto. lia.
    + subst s3. intros E Hp. apply IH in E; [|lia|exact Hp].
      destruct E as (Hd & Hrest). rewrite Hdata in Hd. auto.
Qed.

Lemma tail_loop_total fuel : forall self lines s,
  (s_pos s < fuel)%nat ->
  fst (Tailer.tail_loop fuel self lines s) <> Raise OutOfFuel.
Proof.
  induction fuel as [|fuel IH]; intros self lines s Hfuel; [lia|].
  simpl. destruct (lines =? 0); [discriminate|].
  unfold bind.
  destruct (Tailer.previous self s) as [[p|e] s1] eqn:Hprev.
  - destruct (Z.eqb_spec p (-1)) as [Hp | Hp]; [discriminate|].
    unfold Tailer.previous, bind, Stream.tell in Hprev.
    apply previous_loop_found in Hprev; [|lia|exact Hp].
    destruct Hprev as (_ & Hpos & Hlt). apply IH. lia.
  - pose proof (previous_total self s) as Ht. rewrite Hprev in Ht.
    simpl in *. intros E; apply Ht; inversion E; reflexivity.
Qed.

(** [tail] never runs out of fuel. *)
Lemma tail_total self lines s :
  fst (Tailer.tail self lines s) <> Raise OutOfFuel.
Proof.
  unfold Tailer.tail, bind at 1. unfold Tailer.seek at 1, Stream.seek.
  rewrite Z.add_0_r, Z.max_r by (unfold len; lia).
  unfold bind at 1. unfold len. rewrite Nat2Z.id.
  pose proof (tail_loop_total (S (length (s_data s))) self lines
                (mkStream (s_data s) (length (s_data s)))) as Hloop.
  remember (S (length (s_data s))) as fuel eqn:Hfuel.
  specialize (Hloop ltac:(simpl; lia)). clear Hfuel.
  destruct (Tailer.tail_loop fuel self lines _) as [[u|e] s1].
  2:{ simpl in *. intros E; apply Hloop; inversion E; reflexivity. }
  unfold bind, Stream.read, ret. simpl. discriminate.
Qed.

(** ** [tail] and [head] *)

(** C5.  On the stream CR, "Line 1" CRLF, "Line 2" LF, "Line 3" CR,
    "Line 4" CRLF, LF, CRLF, CRLF, [tail] with 6 lines and a chunk size of
    1 returns "Line 2", "Line 3", "Line 4" and three empty lines, in that
    order. *)
Theorem tail_scenario_A :
  fst (tail 6 1 (file scenario_A))
  = Ok [b "Line 2"; b "Line 3"; b "Line 4"; []; []; []].
Proof. vm_compute. reflexivity. Qed.

(** C2.  The result of [tail] depends on the chunk size: on the two lines
    "Line 1" LF "Line 2" it returns both lines with chunk sizes 1 and
    1024 (as [head] does with all three), and raises with chunk size 2,
    where the second pass of [previous] seeks to offset -1. *)
Theorem tail_chunk_size_2 :
  fst (tail 2 1 (file two_lines)) = Ok [b "Line 1"; b "Line 2"]
  /\ fst (tail 2 1024 (file two_lines)) = Ok [b "Line 1"; b "Line 2"]
  /\ fst (tail 2 2 (file two_lines)) = Raise ValueError
  /\ fst (head 2 1 (file two_lines)) = Ok [b "Line 1"; b "Line 2"]
  /\ fst (head 2 2 (file two_lines)) = Ok [b "Line 1"; b "Line 2"]
  /\ fst (head 2 1024 (file two_lines)) = Ok [b "Line 1"; b "Line 2"].
Proof. vm_compute. repeat split. Qed.

(** The pass of [previous] that fails: entered at offset 7 with chunk size
    2, after three chunks [offset] is 6 and the next seek goes to
    [7 - 6 - 2]. *)
Lemma previous_negative_seek :
  Tailer.previous (Tailer.mk 2) (mkStream two_lines 7)
  = (Raise ValueError, mkStream two_lines 3).
Proof. vm_compute. reflexivity. Qed.

(** ** [follow] *)


(** One pass through the loop of [follow]. *)
Lemma follow_body_eq self trailing s :
  Tailer.follow_body self trailing s =
  let s1 := mkStream (s_data s) (read_from s + length (line_at s)) in
  match line_at s with
  | [] => (Ok (Tailer.Yield None true), mkStream (s_data s) (read_from s))
  | _ :: _ =>
      if trailing && Tailer.in_terminators (line_at s)
      then (Ok (Tailer.Continue false), s1)
      else (Raise (AttributeError "suffix_line_terminator"), s1)
  end.
Proof.
  unfold Tailer.follow_body, line_at, read_from, bind, Tailer.tell,
    Stream.tell, Stream.st_size, Tailer.seek, Stream.seek, Stream.readline,
    ret.
  destruct (len (s_data s) <? Z.of_nat (s_pos s)); simpl.
  - destruct (Stream.upto_LF (s_data s)) as [|x l] eqn:E; [reflexivity|].
    destruct (trailing && _); reflexivity.
  - destruct (Stream.upto_LF (skipn (s_pos s) (s_data s))) as [|x l] eqn:E.
    + destruct (Z.ltb_spec (Z.of_nat (s_pos s)) 0); [lia|].
      rewrite Nat2Z.id. reflexivity.
    + destruct (trailing && _); reflexivity.
Qed.

(** Resuming the generator never runs out of fuel. *)
Lemma generator_next_total g s :
  fst (fst (generator_next g s)) <> Raise OutOfFuel.
Proof.
  unfold generator_next.
  assert (H : forall trailing,
    fst (Tailer.follow_loop 2 (Tailer.g_self g) trailing s)
      <> Raise OutOfFuel).
  { intros trailing. simpl. unfold bind.
    rewrite follow_body_eq. cbv zeta.
    destruct (line_at s); [simpl; discriminate|].
    destruct (trailing && _); [|simpl; discriminate].
    rewrite follow_body_eq. cbv zeta.
    destruct (line_at _); simpl; discriminate. }
  destruct (Tailer.g_state g) as [|trailing|]; [| |simpl; discriminate].
  - specialize (H true).
    destruct (Tailer.follow_loop _ _ _ _) as [[[l t]|e] s']; simpl in *;
      [discriminate | intros E; apply H; inversion E; reflexivity].
  - specialize (H trailing).
    destruct (Tailer.follow_loop _ _ _ _) as [[[l t]|e] s']; simpl in *;
      [discriminate | intros E; apply H; inversion E; reflexivity].
Qed.

(** A pass that reads a line and does not swallow it raises: the class has
    no attribute [suffix_line_terminator]. *)
Lemma follow_body_line self trailing s :
  line_at s <> [] ->
  trailing && Tailer.in_terminators (line_at s) = false ->
  Tailer.follow_body self trailing s
  = (Raise (AttributeError "suffix_line_terminator"),
     mkStream (s_data s) (read_from s + length (line_at s))).
Proof.
  intros Hne Hsw. rewrite follow_body_eq. cbv zeta.
  destruct (line_at s); [contradiction|]. rewrite Hsw. reflexivity.
Qed.

(** C1.  A poll with a complete line in the stream does not emit it: with
    "Line 1" LF written after the session began, the first poll raises
    [AttributeError], the generator is finished, and the cursor is past
    the line. *)
Theorem follow_complete_line :
  follow (file []) = (Ok (Tailer.follow (Tailer.mk 1024)), file [])
  /\ generator_next (Tailer.follow (Tailer.mk 1024))
       (write (b "Line 1" ++ [LF]) (file []))
     = (Raise (AttributeError "suffix_line_terminator"),
        Tailer.mkGen (Tailer.mk 1024) Tailer.GenFinished,
        mkStream (b "Line 1" ++ [LF]) 7).
Proof. vm_compute. split; reflexivity. Qed.

(** C3, as stated, fails: in one session two lone terminators are
    swallowed, the second one two polls after the session began.  Each of
    the three polls yields the no-line marker, and the cursor ends past
    both terminators. *)
Lemma follow_swallows_twice :
  let g0 := Tailer.follow (Tailer.mk 1024) in
  let '(r1, g1, s1) := generator_next g0 (file []) in
  let '(r2, g2, s2) := generator_next g1 (write [LF] s1) in
  let '(r3, g3, s3) := generator_next g2 (write [LF] s2) in
  r1 = Ok None /\ r2 = Ok None /\ r3 = Ok None
  /\ Tailer.follow_body (Tailer.mk 1024) true (write [LF] s1)
     = (Ok (Tailer.Continue false), mkStream [LF] 1)
  /\ Tailer.follow_body (Tailer.mk 1024) true (write [LF] s2)
     = (Ok (Tailer.Continue false), mkStream [LF; LF] 2)
  /\ s3 = mkStream [LF; LF] 2.
Proof. vm_compute. repeat split. Qed.

(** C3, amended.  A pass swallows what it read exactly when [trailing] is
    set and the line read is a lone terminator, and the swallow clears
    [trailing]; a session starts with [trailing] set, and every poll that
    yields the no-line marker sets it again; a pass with [trailing] clear
    swallows nothing, so a poll swallows at most one terminator. *)
Theorem follow_swallow_rule self :
  (forall trailing s,
     (exists trailing' s',
        Tailer.follow_body self trailing s = (Ok (Tailer.Continue trailing'), s'))
     <-> trailing = true /\ Tailer.in_terminators (line_at s) = true)
  /\ (forall trailing s trailing' s',
        Tailer.follow_body self trailing s = (Ok (Tailer.Continue trailing'), s')
        -> trailing' = false
           /\ s' = mkStream (s_data s) (read_from s + length (line_at s)))
  /\ (forall s,
        generator_next (Tailer.follow self) s
        = generator_next (Tailer.mkGen self (Tailer.GenSuspended true)) s)
  /\ (forall g s g' s',
        generator_next g s = (Ok None, g', s')
        -> Tailer.g_state g' = Tailer.GenSuspended true)
  /\ (forall s p s',
        Tailer.follow_body self false s = (Ok p, s')
        -> exists line trailing', p = Tailer.Yield line trailing').
Proof.
  split; [|split; [|split; [|split]]].
  - intros trailing s. rewrite follow_body_eq. cbv zeta. split.
    + intros (trailing' & s' & E).
      destruct (line_at s) as [|x l]; [discriminate|].
      destruct trailing; [|discriminate].
      destruct (Tailer.in_terminators (x :: l)); [auto | discriminate].
    + intros (-> & Hin).
      destruct (line_at s) as [|x l]; [discriminate|].
      rewrite Hin. simpl. eauto.
  - intros trailing s trailing' s'. rewrite follow_body_eq. cbv zeta.
    destruct (line_at s) as [|x l]; [discriminate|].
    destruct (trailing && _); [|discriminate].
    intros E; inversion E; auto.
  - reflexivity.
  - intros g s g' s'. unfold generator_next.
    assert (H : forall trailing line trailing' s1,
      Tailer.follow_loop 2 (Tailer.g_self g) trailing s
        = (Ok (line, trailing'), s1) -> line = None -> trailing' = true).
    { intros trailing line trailing' s1. simpl. unfold bind.
      rewrite follow_body_eq. cbv zeta.
      destruct (line_at s).
      - unfold ret. intros E; inversion E; reflexivity.
      - destruct (trailing && _); [|discriminate].
        rewrite follow_body_eq. cbv zeta.
        destruct (line_at _); [|discriminate].
        unfold ret. intros E; inversion E; reflexivity. }
    destruct (Tailer.g_state g) as [|trailing|]; [| |discriminate].
    + destruct (Tailer.follow_loop _ _ _ _) as [[[l t]|e] s1] eqn:E;
        [|discriminate].
      intros E'; inversion E'; subst. simpl. f_equal. eapply H; eauto.
    + destruct (Tailer.follow_loop _ _ _ _) as [[[l t]|e] s1] eqn:E;
        [|discriminate].
      intros E'; inversion E'; subst. simpl. f_equal. eapply H; eauto.
  - intros s p s'. rewrite follow_body_eq. cbv zeta.
    destruct (line_at s); [|discriminate].
    intros E; inversion E; eauto.
Qed.

Lemma follow_swallow_rule_witness :
  exists trailing' s',
    Tailer.follow_body (Tailer.mk 1024) true (file [LF])
    = (Ok (Tailer.Continue trailing'), s').
Proof.
  destruct (follow_swallow_rule (Tailer.mk 1024)) as [H _].
  apply (H true (file [LF])). split; reflexivity.
Defined.



Lemma read_from_inside s :
  (s_pos s <= length (s_data s))%nat -> read_from s = s_pos s.
Proof.
  intros Hle. unfold read_from, len.
  destruct (Z.ltb_spec (Z.of_nat (length (s_data s))) (Z.of_nat (s_pos s)));
    [lia | reflexivity].
Qed.





(** ** [follow_path] *)

Section FollowPathProofs.

Context {text : Type} (decode : bytes -> result text).

Import FollowPath.

Lemma poll_fields st g :
  following_file (snd (poll st g)) = following_file st
  /\ follow_from_end_on_open (snd (poll st g)) = follow_from_end_on_open st
  /\ (follow_generator st <> None -> follow_generator (snd (poll st g)) <> None).
Proof.
  unfold poll. destruct (nth_error (files st) (gr_file g)) as [f|];
    [|simpl; auto].
  destruct (if f_closed f then _ else _) as [[r gen'] s']. simpl.
  repeat split. discriminate.
Qed.

Lemma close_fields st h :
  following_file (close st h) = following_file st
  /\ follow_generator (close st h) = follow_generator st
  /\ follow_from_end_on_open (close st h) = follow_from_end_on_open st.
Proof.
  unfold close. destruct (nth_error (files st) h); simpl; auto.
Qed.

Lemma open_failed_invariant st : invariant (snd (open_failed st)).
Proof. unfold open_failed, invariant. simpl. tauto. Qed.

Lemma reopen_invariant a st : invariant (snd (reopen a st)).
Proof.
  unfold reopen. destruct (io_open a) as [[ino data]|];
    [|apply open_failed_invariant].
  unfold open_and_follow, Tailer.init.
  destruct (follow_from_end_on_open st); simpl;
    match goal with
    | |- invariant (snd (poll ?st' ?g)) =>
        destruct (poll_fields st' g) as (Hf & _ & Hg);
        unfold invariant; rewrite Hf; simpl in *;
        split; [intros E; exfalso; apply Hg; [discriminate | exact E]
               | discriminate]
    end.
Qed.

(** A successful open starts the new session at the end of the file when
    [follow_from_end_on_open] is set and at offset 0 otherwise, clears the
    flag, and polls the new session before [next] returns. *)
Lemma reopen_spec a st ino data :
  io_open a = Some (ino, data) ->
  let h := length (files st) in
  let start := if follow_from_end_on_open st then length data else 0%nat in
  let g := mkRef (Tailer.follow (Tailer.mk (power_of_2 1024))) h in
  reopen a st
  = poll (mkState (files st ++ [mkFile ino (mkStream data start) false])
            (Some h) (Some g) false) g.
Proof.
  intros Hopen. unfold reopen, open_and_follow, Tailer.init. rewrite Hopen.
  destruct (follow_from_end_on_open st); simpl.
  - unfold bind, Stream.seek, ret, len. simpl.
    rewrite Z.add_0_r, Z.max_r by lia. rewrite Nat2Z.id. reflexivity.
  - reflexivity.
Qed.

Lemma check_identity_spec a st :
  invariant st ->
  invariant (snd (check_identity a st))
  /\ follow_from_end_on_open (snd (check_identity a st))
     = follow_from_end_on_open st.
Proof.
  intros Hinv. unfold check_identity.
  destruct (follow_generator st); [|auto].
  destruct (is_file_changed a st) as [[|]|e]; [|auto|auto].
  unfold close_following_file.
  destruct (following_file st) as [h|]; [|auto]. simpl.
  destruct (close_fields st h) as (_ & _ & ->).
  split; [unfold invariant; simpl; tauto | reflexivity].
Qed.

Lemma reopen_flag a st :
  follow_from_end_on_open st = false ->
  follow_from_end_on_open (snd (reopen a st)) = false.
Proof.
  intros H. unfold reopen, open_failed.
  destruct (io_open a) as [[ino data]|].
  - unfold open_and_follow, Tailer.init. rewrite H. simpl.
    match goal with
    | |- context [poll ?st' ?g] =>
        destruct (poll_fields st' g) as (_ & -> & _)
    end. reflexivity.
  - simpl. destruct (following_file st) as [h|]; [|exact H].
    destruct (close_fields st h) as (_ & _ & ->). exact H.
Qed.

Lemma open_new_stream_spec a st :
  invariant st ->
  invariant (snd (open_new_stream a st))
  /\ (follow_from_end_on_open st = false ->
      follow_from_end_on_open (snd (open_new_stream a st)) = false).
Proof.
  intros Hinv. unfold open_new_stream.
  destruct (follow_generator st); [auto|].
  destruct (isfile_open a); [|auto].
  split; [apply reopen_invariant | apply reopen_flag].
Qed.

(** Once cleared, the flag stays cleared; [__init__] leaves it set only
    when it opened nothing. *)
Lemma flag_stays_cleared a st :
  invariant st ->
  follow_from_end_on_open st = false ->
  follow_from_end_on_open (snd (next decode a st)) = false.
Proof.
  intros Hinv Hflag. unfold next.
  assert (H1 : invariant (snd match follow_generator st with
                              | Some g => poll st g
                              | None => (Ok None, st)
                              end)
               /\ follow_from_end_on_open
                    (snd match follow_generator st with
                         | Some g => poll st g
                         | None => (Ok None, st)
                         end) = false).
  { destruct (follow_generator st) as [g|] eqn:Hgen; [|auto].
    destruct (poll_fields st g) as (Hf & -> & Hg).
    split; [|exact Hflag].
    unfold invariant in *. rewrite Hf. split.
    - intros E. exfalso. apply Hg; [rewrite Hgen; discriminate | exact E].
    - intros E. apply Hinv in E. rewrite Hgen in E. discriminate. }
  destruct (match follow_generator st with
            | Some g => poll st g
            | None => (Ok None, st)
            end) as [[[line|]|e] st1]; simpl in H1; destruct H1 as [Hi1 Hf1];
    [exact Hf1 | | exact Hf1].
  destruct (check_identity_spec a st1 Hi1) as [Hi2 Hf2].
  destruct (check_identity a st1) as [[u|e] st2]; simpl in *;
    [|congruence].
  destruct (open_new_stream_spec a st2 Hi2) as [_ Hf3].
  destruct (open_new_stream a st2) as [[line|e] st3]; simpl in *;
    apply Hf3; congruence.
Qed.

(** C9.  Every call of [next] preserves the invariant that a generator is
    stored exactly when an open file is, whatever the operating system
    answers: on the identity-change path both are discarded, on the
    open-failure path both are reset, and a successful open stores
    both. *)
Theorem next_preserves_invariant a st :
  invariant st -> invariant (snd (next decode a st)).
Proof.
  intros Hinv. unfold next.
  assert (H1 : invariant (snd match follow_generator st with
                              | Some g => poll st g
                              | None => (Ok None, st)
                              end)).
  { destruct (follow_generator st) as [g|] eqn:Hgen; [|exact Hinv].
    destruct (poll_fields st g) as (Hf & _ & Hg).
    unfold invariant in *. rewrite Hf. split.
    - intros E. exfalso. apply Hg; [rewrite Hgen; discriminate | exact E].
    - intros E. apply Hinv in E. rewrite Hgen in E. discriminate. }
  destruct (match follow_generator st with
            | Some g => poll st g
            | None => (Ok None, st)
            end) as [[[line|]|e] st1]; simpl in H1;
    [exact H1 | | exact H1].
  destruct (check_identity_spec a st1 H1) as [Hi2 _].
  destruct (check_identity a st1) as [[u|e] st2]; simpl in *; [|exact Hi2].
  destruct (open_new_stream_spec a st2 Hi2) as [Hi3 _].
  destruct (open_new_stream a st2) as [[line|e] st3]; exact Hi3.
Qed.

End FollowPathProofs.

(** [__init__] establishes the invariant. *)
Lemma init_invariant isfile opened st :
  FollowPath.init isfile opened = Ok st -> FollowPath.invariant st.
Proof.
  unfold FollowPath.init.
  destruct isfile; [|intros E; inversion E; unfold FollowPath.invariant;
                      simpl; tauto].
  destruct opened as [[ino data]|]; [|discriminate].
  unfold FollowPath.open_and_follow, Tailer.init. simpl.
  intros E; inversion E. unfold FollowPath.invariant. simpl.
  split; discriminate.
Qed.

Lemma init_following :
  FollowPath.init true (Some (1%nat, [])) = Ok following.
Proof. vm_compute. reflexivity. Qed.

Lemma next_preserves_invariant_witness :
  FollowPath.invariant following
  /\ FollowPath.invariant
       (snd (FollowPath.next (@Ok bytes) rotated following)).
Proof.
  assert (Hinv : FollowPath.invariant following)
    by (unfold FollowPath.invariant; simpl; split; discriminate).
  split; [exact Hinv|].
  apply (next_preserves_invariant (@Ok bytes) rotated following). exact Hinv.
Defined.

(** C8.  After a rotation the new session is opened at offset 0 and polled
    at once, but the line that is there is not returned: for the file
    followed to its end and then replaced by one holding "Line 4" LF,
    [next] raises [AttributeError] out of the poll of the new session,
    whose cursor is left past the line. *)
Theorem follow_path_rotation :
  let '(r, st') := FollowPath.next (@Ok bytes) rotated following in
  r = Raise (AttributeError "suffix_line_terminator")
  /\ FollowPath.following_file st' = Some 1%nat
  /\ nth_error (FollowPath.files st') 1
     = Some (FollowPath.mkFile 2 (mkStream (b "Line 4" ++ [LF]) 7) false)
  /\ FollowPath.follow_from_end_on_open st' = false.
Proof. vm_compute. repeat split. Qed.

(** ** The forward scan and the chunk size *)

Lemma prefix_cons self x rest :
  Tailer.prefix self (x :: rest)
  = if Byte.eqb x CR
    then Some (if starts_with_LF rest then [CR; LF] else [CR])
    else if Byte.eqb x LF then Some [LF] else None.
Proof.
  unfold Tailer.prefix, Tailer.term, Tailer._terminators. simpl.
  destruct (Byte.eqb x CR) eqn:E1.
  - apply byte_dec_bl in E1. subst x.
    destruct rest as [|y rest]; simpl; [reflexivity|].
    destruct (Byte.eqb y LF); destruct rest; reflexivity.
  - simpl. destruct (Byte.eqb x LF); destruct rest; reflexivity.
Qed.

Lemma ends_with_CR_cons x d :
  d <> [] -> ends_with_CR (x :: d) = ends_with_CR d.
Proof.
  intros Hd. unfold ends_with_CR. simpl.
  destruct (rev d) as [|y l] eqn:E; [|reflexivity].
  apply (f_equal (@rev byte)) in E. rewrite rev_involutive in E.
  contradiction.
Qed.

(** Scanning a chunk [d] of the bytes [d ++ r]: when the chunk does not
    cut a CR LF in two, the scan finds what the scan of all the bytes
    finds, if that lies in the chunk. *)
Lemma next_scan_chunk self d : forall r k,
  (ends_with_CR d = true -> starts_with_LF r = false) ->
  match Tailer.next_scan self d k with
  | Some (data_where, t) =>
      exists i, data_where = k + Z.of_nat i
                /\ first_terminator (d ++ r) = Some (i, t)
  | None =>
      first_terminator (d ++ r)
      = match first_terminator r with
        | Some (i, t) => Some ((length d + i)%nat, t)
        | None => None
        end
  end.
Proof.
  induction d as [|x d IH]; intros r k HB.
  - simpl. destruct (first_terminator r) as [[i t]|]; reflexivity.
  - cbn [Tailer.next_scan]. rewrite prefix_cons.
    cbn [app first_terminator].
    assert (Hlf : Byte.eqb x CR = true ->
                  starts_with_LF (d ++ r) = starts_with_LF d).
    { intros Hx. destruct d as [|y d]; [|reflexivity].
      simpl. apply HB. unfold ends_with_CR. simpl. exact Hx. }
    destruct (Byte.eqb x CR) eqn:E1.
    + exists 0%nat. rewrite Hlf by reflexivity. split; [lia | reflexivity].
    + destruct (Byte.eqb x LF).
      * exists 0%nat. split; [lia | reflexivity].
      * assert (HB' : ends_with_CR d = true -> starts_with_LF r = false).
        { intros Hd. apply HB. rewrite ends_with_CR_cons; [exact Hd|].
          intros ->. discriminate. }
        specialize (IH r (k + 1) HB').
        destruct (Tailer.next_scan self d (k + 1)) as [[dw t]|].
        -- destruct IH as (i & -> & ->). exists (S i). split; [lia | reflexivity].
        -- rewrite IH. destruct (first_terminator r) as [[i t]|]; reflexivity.
Qed.

Lemma getitem_last d x s :
  Tailer.getitem (d ++ [x]) (-1) s = (Ok x, s).
Proof.
  unfold Tailer.getitem, len. rewrite length_app. simpl.
  destruct (Z.ltb_spec (Z.of_nat (length d + 1) + -1) 0); [lia|].
  replace (Z.to_nat (Z.of_nat (length d + 1) + -1)) with (length d) by lia.
  rewrite nth_error_app2, Nat.sub_diag by lia. reflexivity.
Qed.

(** What the peek of [next] returns after a chunk [got] read at [pos],
    [r] being the bytes after the chunk. *)
Lemma next_peek_eq self data pos got r :
  got <> [] ->
  skipn (pos + length got) data = r ->
  Tailer.next_peek self (len got) got (mkStream data (pos + length got))
  = if ends_with_CR got && starts_with_LF r
    then (Ok (len got + 1, got ++ [LF]),
          mkStream data (pos + length got + 1))
    else (Ok (len got, got), mkStream data (pos + length got)).
Proof.
  intros Hgot Hr.
  destruct (exists_last Hgot) as (g & x & ->).
  unfold Tailer.next_peek, bind.
  change (Tailer.in_terminators [CR; LF]) with true. cbv beta iota.
  rewrite getitem_last. unfold ret at 1. cbv beta iota.
  unfold ends_with_CR. rewrite rev_app_distr. simpl rev. cbn [app].
  destruct (Byte.eqb x CR); [|reflexivity].
  unfold Tailer.tell, Stream.tell, Tailer.read, Stream.read, bind, ret.
  cbn [s_data s_pos]. rewrite Hr. change (1 <? 0) with false.
  cbv beta iota. change (Z.to_nat 1) with 1%nat.
  destruct r as [|y r]; simpl.
  - unfold Tailer.seek, Stream.seek.
    destruct (Z.ltb_spec (Z.of_nat (pos + length (g ++ [x]))) 0); [lia|].
    rewrite Nat2Z.id. reflexivity.
  - destruct (Byte.eqb y LF); [reflexivity|].
    unfold Tailer.seek, Stream.seek.
    destruct (Z.ltb_spec (Z.of_nat (pos + length (g ++ [x]))) 0); [lia|].
    rewrite Nat2Z.id. reflexivity.
Qed.

Lemma read_eq self n data pos :
  0 <= n ->
  Tailer.read self n (mkStream data pos)
  = (Ok (len (firstn (Z.to_nat n) (skipn pos data)),
         firstn (Z.to_nat n) (skipn pos data)),
     mkStream data (pos + length (firstn (Z.to_nat n) (skipn pos data)))).
Proof.
  intros Hn. unfold Tailer.read, Stream.read, bind, ret. simpl.
  destruct (Z.ltb_spec n 0); [lia | reflexivity].
Qed.

(** The chunk [next] scans, after its peek: a prefix [d] of the bytes at
    the cursor that does not cut a CR LF in two. *)
Lemma next_chunk self data pos got :
  got <> [] ->
  got = firstn (length got) (skipn pos data) ->
  exists d r,
    Tailer.next_peek self (len got) got (mkStream data (pos + length got))
    = (Ok (len d, d), mkStream data (pos + length d))
    /\ skipn pos data = d ++ r
    /\ d <> []
    /\ (ends_with_CR d = true -> starts_with_LF r = false).
Proof.
  intros Hne Hgot.
  assert (Hrest : skipn pos data
                  = got ++ skipn (pos + length got) data).
  { rewrite Nat.add_comm, <- skipn_skipn. rewrite Hgot at 1.
    symmetry. apply firstn_skipn. }
  rewrite (next_peek_eq self data pos got _ Hne eq_refl).
  destruct (ends_with_CR got) eqn:Ecr;
    [destruct (skipn (pos + length got) data) as [|y r] eqn:Er|]; simpl.
  - exists got, []. rewrite Hrest. repeat split; auto.
  - destruct (Byte.eqb y LF) eqn:Elf.
    + apply byte_dec_bl in Elf. subst y.
      exists (got ++ [LF]), r.
      unfold len. rewrite length_app, <- app_assoc. simpl.
      rewrite Nat2Z.inj_add, Nat.add_assoc. simpl.
      repeat split; auto.
      * intros E. apply app_eq_nil in E. destruct E; discriminate.
      * unfold ends_with_CR. rewrite rev_app_distr. simpl. discriminate.
    + exists got, (y :: r). simpl. rewrite Elf. repeat split; auto.
  - exists got, (skipn (pos + length got) data). repeat split; auto.
    congruence.
Qed.

Lemma next_loop_first fuel : forall self where_ offset data pos,
  1 <= Tailer.size self ->
  Z.of_nat pos = where_ + offset ->
  (pos <= length data)%nat ->
  (length data - pos < fuel)%nat ->
  Tailer.next_loop fuel self where_ offset (mkStream data pos)
  = match first_terminator (skipn pos data) with
    | Some (i, t) =>
        (Ok (Z.of_nat (pos + i + length t)),
         mkStream data (pos + i + length t))
    | None => (Ok (-1), mkStream data (length data))
    end.
Proof.
  induction fuel as [|fuel IH]; intros self where_ offset data pos
    Hsize Hinv Hin Hfuel; [lia|].
  cbn [Tailer.next_loop]. unfold bind at 1.
  rewrite read_eq by lia. cbv beta iota.
  set (got := firstn (Z.to_nat (Tailer.size self)) (skipn pos data)).
  destruct (skipn pos data) as [|x rest] eqn:Erest.
  - assert (got = []) as -> by (unfold got; apply firstn_nil).
    simpl. unfold ret. f_equal. f_equal.
    apply (f_equal (@length byte)) in Erest.
    rewrite length_skipn in Erest. simpl in Erest. lia.
  - assert (Hne : got <> []).
    { unfold got. destruct (Z.to_nat (Tailer.size self)) eqn:E; [lia|].
      simpl. discriminate. }
    assert (Hgot : got = firstn (length got) (skipn pos data)).
    { rewrite Erest. unfold got. rewrite length_firstn.
      destruct (Nat.le_gt_cases (Z.to_nat (Tailer.size self))
                  (length (x :: rest))) as [Hle | Hgt].
      - rewrite Nat.min_l by exact Hle. reflexivity.
      - rewrite Nat.min_r by lia. rewrite firstn_all.
        apply firstn_all2. lia. }
    assert (Hlen : (len got =? 0) = false).
    { apply Z.eqb_neq. unfold len. destruct got; [contradiction|].
      simpl. lia. }
    rewrite Hlen.
    destruct (next_chunk self data pos got Hne Hgot)
      as (d & r & Hpeek & Hsplit & Hd & HB).
    unfold bind at 1. rewrite Hpeek. cbv beta iota.
    rewrite Erest in Hsplit. rewrite Hsplit.
    pose proof (next_scan_chunk self d r 0 HB) as Hscan.
    assert (Hdlen : (pos + length d <= length data)%nat).
    { apply (f_equal (@length byte)) in Hsplit.
      apply (f_equal (@length byte)) in Erest.
      rewrite length_skipn in Erest. rewrite length_app in Hsplit.
      simpl in *. lia. }
    destruct (Tailer.next_scan self d 0) as [[data_where t]|].
    + destruct Hscan as (i & -> & ->).
      unfold bind, Tailer.seek, Stream.seek, Tailer.tell, Stream.tell, len.
      destruct (Z.ltb_spec (where_ + offset + (0 + Z.of_nat i)
                            + Z.of_nat (length t)) 0); [lia|].
      cbn [s_data s_pos].
      replace (Z.to_nat (where_ + offset + (0 + Z.of_nat i)
                         + Z.of_nat (length t)))
        with (pos + i + length t)%nat by lia.
      reflexivity.
    + rewrite Hscan. unfold bind at 1, Tailer.seek, Stream.seek, len.
      destruct (Z.ltb_spec (where_ + (offset + Z.of_nat (length d))) 0);
        [lia|].
      cbn [s_data].
      replace (Z.to_nat (where_ + (offset + Z.of_nat (length d))))
        with (pos + length d)%nat by lia.
      assert (Hd1 : (0 < length d)%nat)
        by (destruct d; [contradiction | simpl; lia]).
      rewrite IH; [|exact Hsize|lia|exact Hdlen|lia].
      assert (Hr : skipn (pos + length d) data = r).
      { rewrite Nat.add_comm, <- skipn_skipn, Erest, Hsplit.
        rewrite skipn_app, skipn_all, Nat.sub_diag. reflexivity. }
      rewrite Hr.
      destruct (first_terminator r) as [[i t]|]; [|reflexivity].
      rewrite !Nat.add_assoc. reflexivity.
Qed.

Lemma first_terminator_bound rest i t :
  first_terminator rest = Some (i, t) ->
  (1 <= length t /\ i + length t <= length rest)%nat.
Proof.
  revert i t; induction rest as [|x rest IH]; intros i t; [discriminate|].
  cbn [first_terminator].
  destruct (Byte.eqb x CR).
  - intros E; inversion E; subst.
    destruct rest as [|y rest]; simpl; [lia|].
    destruct (Byte.eqb y LF); simpl; lia.
  - destruct (Byte.eqb x LF).
    + intros E; inversion E; subst. simpl. lia.
    + destruct (first_terminator rest) as [[j u]|]; [|discriminate].
      intros E; inversion E; subst.
      destruct (IH j t eq_refl). simpl. lia.
Qed.

Lemma next_eq self s :
  1 <= Tailer.size self ->
  (s_pos s <= length (s_data s))%nat ->
  Tailer.next self s
  = match first_terminator (skipn (s_pos s) (s_data s)) with
    | Some (i, t) =>
        (Ok (Z.of_nat (s_pos s + i + length t)),
         mkStream (s_data s) (s_pos s + i + length t))
    | None => (Ok (-1), mkStream (s_data s) (length (s_data s)))
    end.
Proof.
  intros Hsize Hin. destruct s as [data pos]. simpl in *.
  unfold Tailer.next, bind, Stream.tell. cbn [s_data s_pos].
  apply next_loop_first; [exact Hsize | lia | exact Hin | lia].
Qed.

(** X1.  With a chunk size of at least 1 and the cursor inside the stream,
    [next] returns the offset just after the first terminator at or after
    the cursor, CR LF counting as one, and leaves the cursor there; when no
    terminator follows it returns -1 with the cursor at the end of the
    stream.  The chunk size has no part in the result. *)
Theorem next_first_terminator self s :
  1 <= Tailer.size self ->
  (s_pos s <= length (s_data s))%nat ->
  Tailer.next self s
  = match first_terminator (skipn (s_pos s) (s_data s)) with
    | Some (i, t) =>
        (Ok (Z.of_nat (s_pos s + i + length t)),
         mkStream (s_data s) (s_pos s + i + length t))
    | None => (Ok (-1), mkStream (s_data s) (length (s_data s)))
    end.
Proof. exact (next_eq self s). Qed.

Lemma next_first_terminator_witness :
  Tailer.next (Tailer.mk 2) (file ([CR] ++ b "ab" ++ CRLF ++ b "c"))
  = (Ok 1, mkStream ([CR] ++ b "ab" ++ CRLF ++ b "c") 1).
Proof.
  rewrite (next_first_terminator (Tailer.mk 2)
             (file ([CR] ++ b "ab" ++ CRLF ++ b "c")));
    [reflexivity | simpl; lia | simpl; lia].
Defined.

Lemma head_loop_chunk_size fuel : forall self1 self2 lines s,
  1 <= Tailer.size self1 -> 1 <= Tailer.size self2 ->
  (s_pos s <= length (s_data s))%nat ->
  Tailer.head_loop fuel self1 lines s = Tailer.head_loop fuel self2 lines s.
Proof.
  induction fuel as [|fuel IH]; intros self1 self2 lines s H1 H2 Hin;
    [reflexivity|].
  cbn [Tailer.head_loop]. destruct (lines =? 0); [reflexivity|].
  unfold bind.
  rewrite (next_eq self1 s H1 Hin), (next_eq self2 s H2 Hin).
  destruct (first_terminator _) as [[i t]|] eqn:E; [|reflexivity].
  destruct (_ =? -1); [reflexivity|].
  apply IH; [exact H1 | exact H2|].
  apply first_terminator_bound in E. rewrite length_skipn in E.
  simpl. lia.
Qed.

(** X2.  [head] does not depend on the chunk size: two instances with
    chunk sizes of at least 1 return the same lines, and leave the stream
    in the same state, for every stream and every number of lines. *)
Theorem head_chunk_size self1 self2 lines s :
  1 <= Tailer.size self1 -> 1 <= Tailer.size self2 ->
  Tailer.head self1 lines s = Tailer.head self2 lines s.
Proof.
  intros H1 H2. unfold Tailer.head.
  remember (S (length (s_data s))) as fuel eqn:Hfuel. clear Hfuel.
  unfold bind at 1 3. unfold Tailer.seek at 1 3, Stream.seek.
  change (0 <? 0) with false. cbv beta iota.
  unfold bind at 1 3.
  rewrite (head_loop_chunk_size fuel self1 self2) by (simpl; lia).
  reflexivity.
Qed.

Lemma head_chunk_size_witness :
  Tailer.head (Tailer.mk 1) 2 (file two_lines)
  = Tailer.head (Tailer.mk 1024) 2 (file two_lines).
Proof.
  apply (head_chunk_size (Tailer.mk 1) (Tailer.mk 1024)); simpl; lia.
Defined.

(** ** [splitlines] *)

Lemma is_line_cons x l :
  is_line (x :: l) ->
  Byte.eqb x CR = false /\ Byte.eqb x LF = false /\ is_line l.
Proof.
  intros [Hcr Hlf]. simpl in *. repeat split.
  - destruct (Byte.eqb x CR) eqn:E; [|reflexivity].
    apply byte_dec_bl in E. subst. exfalso. auto.
  - destruct (Byte.eqb x LF) eqn:E; [|reflexivity].
    apply byte_dec_bl in E. subst. exfalso. auto.
  - auto.
  - auto.
Qed.

(** A line is taken into the current piece byte by byte. *)
Lemma re_split_line l : forall rest cur,
  is_line l ->
  Tailer.re_split (l ++ rest) cur = Tailer.re_split rest (rev l ++ cur).
Proof.
  induction l as [|x l IH]; intros rest cur Hl; [reflexivity|].
  apply is_line_cons in Hl. destruct Hl as (Hcr & Hlf & Hl).
  cbn [app Tailer.re_split]. rewrite Hcr, Hlf.
  rewrite IH by exact Hl. simpl. rewrite <- app_assoc. reflexivity.
Qed.

Lemma join_lines_head l more :
  is_line l -> separated more ->
  (l = [] -> match more with
             | (t', _) :: _ => t' <> [LF]
             | [] => True
             end) ->
  starts_with_LF (join_lines l more) = false.
Proof.
  intros Hl Hsep Hnext.
  destruct l as [|x l].
  - destruct more as [|[t' l'] more]; [reflexivity|].
    specialize (Hnext eq_refl). destruct Hsep as (Hin & _).
    simpl in Hin.
    destruct Hin as [<- | [<- | [<- | []]]];
      [reflexivity | contradiction | reflexivity].
  - apply is_line_cons in Hl. destruct Hl as (_ & Hlf & _).
    destruct more as [|[t' l'] more]; simpl; exact Hlf.
Qed.

Lemma re_split_CR rest cur :
  starts_with_LF rest = false ->
  Tailer.re_split (CR :: rest) cur = rev cur :: Tailer.re_split rest [].
Proof.
  intros Hlf. cbn [Tailer.re_split]. simpl (Byte.eqb CR CR). cbv iota.
  destruct rest as [|y rest]; [reflexivity|].
  simpl in Hlf. rewrite Hlf. reflexivity.
Qed.

Lemma re_split_join more : forall first cur,
  is_line first -> separated more ->
  Tailer.re_split (join_lines first more) cur
  = (rev cur ++ first) :: map snd more.
Proof.
  induction more as [|[t l] more IH]; intros first cur Hfirst Hsep.
  - simpl. rewrite <- (app_nil_r first) at 1.
    rewrite re_split_line by exact Hfirst. simpl.
    rewrite rev_app_distr, rev_involutive. reflexivity.
  - destruct Hsep as (Hin & Hl & Hcr & Hsep).
    cbn [join_lines]. rewrite re_split_line by exact Hfirst.
    assert (Hrev : rev (rev first ++ cur) = rev cur ++ first)
      by (rewrite rev_app_distr, rev_involutive; reflexivity).
    simpl in Hin. destruct Hin as [<- | [<- | [<- | []]]].
    + cbn [app Tailer.re_split]. simpl. rewrite Hrev.
      rewrite IH by assumption. reflexivity.
    + cbn [app Tailer.re_split]. simpl. rewrite Hrev.
      rewrite IH by assumption. reflexivity.
    + pose proof (join_lines_head l more Hl Hsep (Hcr eq_refl)) as Hlf.
      cbn [app]. rewrite re_split_CR by exact Hlf.
      rewrite Hrev, IH by assumption. reflexivity.
Qed.

(** X3.  [splitlines] inverts the joining of lines by terminators, in any
    mix of CR LF, LF and CR: for lines that hold no CR and no LF, joined so
    that no terminator CR is followed at once by a terminator LF, it
    returns the lines in their order. *)
Theorem splitlines_join self first more :
  is_line first -> separated more ->
  Tailer.splitlines self (join_lines first more) = first :: map snd more.
Proof.
  intros Hfirst Hsep. unfold Tailer.splitlines.
  rewrite re_split_join by assumption. reflexivity.
Qed.

Lemma splitlines_join_witness :
  Tailer.splitlines (Tailer.mk 1)
    (join_lines (b "a") [([CR], []); (CRLF, b "b"); ([LF], b "c")])
  = [b "a"; []; b "b"; b "c"].
Proof.
  apply (splitlines_join (Tailer.mk 1) (b "a")
           [([CR], []); (CRLF, b "b"); ([LF], b "c")]).
  - split; simpl; intros [H | []]; discriminate.
  - simpl. repeat split; auto; try discriminate;
      try (intros [H | [H | []]]; discriminate); try tauto;
      try (intros [H | []]; discriminate).
Defined.


Lemma is_line_rev cur : is_line cur -> is_line (rev cur).
Proof.
  intros [Hcr Hlf]. split; intros H; apply in_rev in H; auto.
Qed.

Lemma re_split_pieces n : forall data cur,
  (length data <= n)%nat ->
  is_line cur ->
  Forall is_line (Tailer.re_split data cur)
  /\ Tailer.re_split data cur <> [].
Proof.
  assert (Hnil : is_line []) by (split; intros []).
  induction n as [|n IH]; intros data cur Hn Hcur.
  - destruct data; [|simpl in Hn; lia].
    simpl. split; [|discriminate].
    repeat constructor; apply is_line_rev; exact Hcur.
  - destruct data as [|x data].
    + simpl. split; [|discriminate].
      repeat constructor; apply is_line_rev; exact Hcur.
    + simpl in Hn. cbn [Tailer.re_split].
      assert (Hrest : forall rest, (length rest <= n)%nat ->
                Forall is_line (rev cur :: Tailer.re_split rest [])
                /\ rev cur :: Tailer.re_split rest [] <> []).
      { intros rest Hr. split; [|discriminate].
        constructor; [apply is_line_rev; exact Hcur|].
        apply IH; [exact Hr | exact Hnil]. }
      destruct (Byte.eqb x CR) eqn:Ecr.
      * destruct data as [|y data]; [apply Hrest; simpl; lia|].
        simpl in Hn.
        destruct (Byte.eqb y LF); apply Hrest; simpl; lia.
      * destruct (Byte.eqb x LF) eqn:Elf; [apply Hrest; lia|].
        apply IH; [lia|].
        destruct Hcur as [Hc Hl]. split; intros [E | E]; auto; subst x;
          discriminate.
Qed.

(** X4.  [splitlines] always returns at least one piece, the empty byte
    string giving one empty piece, and no piece holds a CR or an LF. *)
Theorem splitlines_pieces self data :
  Tailer.splitlines self data <> []
  /\ Forall is_line (Tailer.splitlines self data)
  /\ Tailer.splitlines self [] = [[]].
Proof.
  unfold Tailer.splitlines.
  destruct (re_split_pieces (length data) data []) as [Hall Hne];
    [lia | split; intros [] |].
  repeat split; assumption.
Qed.

(** ** Edges of [tail] and [head] *)

Lemma skipn_length_nil (data : bytes) : skipn (length data) data = [].
Proof. apply skipn_all. Qed.

Lemma tail_zero self s :
  Tailer.tail self 0 s = (Ok [], mkStream (s_data s) (length (s_data s))).
Proof.
  unfold Tailer.tail, bind, Tailer.seek, Stream.seek, Stream.read, ret, len.
  rewrite Z.add_0_r, Z.max_r, Nat2Z.id by lia.
  cbn [Tailer.tail_loop]. simpl (0 =? 0). cbv beta iota. unfold ret.
  cbn [s_data s_pos]. rewrite skipn_length_nil. simpl.
  rewrite Nat.add_0_r. reflexivity.
Qed.

Lemma head_zero self s :
  Tailer.head self 0 s = (Ok [], mkStream (s_data s) 0).
Proof.
  unfold Tailer.head, bind, Tailer.seek, Stream.seek, Tailer.tell,
    Stream.tell, Stream.read, ret.
  cbn [Tailer.head_loop]. simpl (0 =? 0). simpl (0 <? 0). cbv beta iota.
  unfold ret. cbn [s_data s_pos]. simpl. reflexivity.
Qed.

Lemma tail_empty self lines pos :
  Tailer.tail self lines (mkStream [] pos) = (Ok [], mkStream [] 0).
Proof.
  unfold Tailer.tail, bind, Tailer.seek, Stream.seek, Stream.read, ret, len.
  simpl. destruct (lines =? 0); reflexivity.
Qed.

Lemma next_empty self :
  Tailer.next self (mkStream [] 0) = (Ok (-1), mkStream [] 0).
Proof.
  unfold Tailer.next, bind, Stream.tell. cbn [s_data s_pos length Nat.sub].
  cbn [Tailer.next_loop]. unfold bind, Tailer.read, Stream.read, bind, ret.
  cbn [s_data s_pos skipn]. rewrite firstn_nil.
  destruct (Tailer.size self <? 0); reflexivity.
Qed.

Lemma head_empty self lines pos :
  Tailer.head self lines (mkStream [] pos) = (Ok [], mkStream [] 0).
Proof.
  unfold Tailer.head. cbn [s_data length].
  unfold bind at 1. unfold Tailer.seek at 1, Stream.seek.
  change (0 <? 0) with false. cbv beta iota. cbn [s_data].
  change (Z.to_nat 0) with 0%nat.
  unfold bind at 1. cbn [Tailer.head_loop].
  assert (Hloop : (if lines =? 0 then ret tt
                   else p <- Tailer.next self ;;
                        (if p =? -1 then ret tt else raise OutOfFuel))
                    (mkStream [] 0) = (Ok tt, mkStream [] 0)).
  { destruct (lines =? 0); [reflexivity|].
    unfold bind. rewrite next_empty. reflexivity. }
  rewrite Hloop. reflexivity.
Qed.

(** X5.  [tail] and [head] return no line when asked for none and when the
    stream is empty, whatever the chunk size, the cursor and the number of
    lines asked for; [tail] leaves the cursor at the end of the stream and
    [head] at its start. *)
Theorem bulk_nothing self lines s :
  Tailer.tail self 0 s = (Ok [], mkStream (s_data s) (length (s_data s)))
  /\ Tailer.head self 0 s = (Ok [], mkStream (s_data s) 0)
  /\ (s_data s = [] ->
      Tailer.tail self lines s = (Ok [], mkStream [] 0)
      /\ Tailer.head self lines s = (Ok [], mkStream [] 0)).
Proof.
  split; [apply tail_zero|]. split; [apply head_zero|].
  destruct s as [data pos]. simpl. intros ->.
  split; [apply tail_empty | apply head_empty].
Qed.

(** ** What the scans and the loops guarantee for every chunk size *)

(** X6.  Whatever the chunk size and the cursor, a position [next]
    returns lies after the cursor it started from and a position
    [previous] returns lies before it and is not negative; the cursor is
    left on the position returned and the bytes of the stream are not
    changed. *)
Theorem scan_progress self s p s' :
  p <> -1 ->
  (Tailer.next self s = (Ok p, s') ->
   s_data s' = s_data s /\ Z.of_nat (s_pos s') = p
   /\ (s_pos s < s_pos s')%nat)
  /\ (Tailer.previous self s = (Ok p, s') ->
      s_data s' = s_data s /\ Z.of_nat (s_pos s') = p
      /\ 0 <= p < Z.of_nat (s_pos s)).
Proof.
  intros Hp. split.
  - unfold Tailer.next, bind, Stream.tell. intros E.
    apply next_loop_found in E; [|lia].
    destruct E as [Hd [? | (Hpos & Hlt & _)]]; [contradiction|].
    auto.
  - unfold Tailer.previous, bind, Stream.tell. intros E.
    apply previous_loop_found in E; [|lia|exact Hp].
    destruct E as (Hd & Hpos & Hlt). repeat split; try lia. exact Hd.
Qed.

Lemma scan_progress_witness :
  (s_pos (snd (Tailer.previous (Tailer.mk 4) (mkStream two_lines 13))) < 13)%nat.
Proof.
  destruct (scan_progress (Tailer.mk 4) (mkStream two_lines 13) 7
              (snd (Tailer.previous (Tailer.mk 4) (mkStream two_lines 13)))
              ltac:(lia)) as [_ H].
  destruct (H ltac:(vm_compute; reflexivity)) as (_ & Hpos & Hlt).
  simpl in Hlt. lia.
Defined.

(** X7.  The loops of [next], [previous], [head] and [tail] come to an end
    on every stream, for every chunk size, cursor and number of lines
    (negative ones too): none of them uses up the bound on its passes
    that the model gives it. *)
Theorem scans_terminate self lines s :
  fst (Tailer.next self s) <> Raise OutOfFuel
  /\ fst (Tailer.previous self s) <> Raise OutOfFuel
  /\ fst (Tailer.head self lines s) <> Raise OutOfFuel
  /\ fst (Tailer.tail self lines s) <> Raise OutOfFuel.
Proof.
  split; [apply next_total|]. split; [apply previous_total|].
  split; [apply head_total | apply tail_total].
Qed.

(** ** What a follow session can return *)

Lemma follow_loop_outcome self trailing s :
  match fst (Tailer.follow_loop 2 self trailing s) with
  | Ok (line, trailing') => line = None /\ trailing' = true
  | Raise e => e = AttributeError "suffix_line_terminator"
  end.
Proof.
  simpl. unfold bind. rewrite follow_body_eq. cbv zeta.
  destruct (line_at s); [simpl; auto|].
  destruct (trailing && _); [|reflexivity].
  rewrite follow_body_eq. cbv zeta.
  destruct (line_at _); simpl; auto.
Qed.

Lemma generator_next_outcome g s :
  match fst (fst (generator_next g s)) with
  | Ok line => line = None
  | Raise e => e = AttributeError "suffix_line_terminator"
               \/ e = StopIteration
  end.
Proof.
  unfold generator_next.
  destruct (Tailer.g_state g) as [|trailing|]; [| |simpl; auto].
  - pose proof (follow_loop_outcome (Tailer.g_self g) true s) as H.
    destruct (Tailer.follow_loop _ _ _ _) as [[[l t]|e] s']; simpl in *;
      [tauto | auto].
  - pose proof (follow_loop_outcome (Tailer.g_self g) trailing s) as H.
    destruct (Tailer.follow_loop _ _ _ _) as [[[l t]|e] s']; simpl in *;
      [tauto | auto].
Qed.

(** X8.  No poll of a follow session yields a line: whatever the stream
    holds, [next(generator)] yields the no-line marker or raises, and what
    it raises is the [AttributeError] of the missing method
    [suffix_line_terminator] or, once the generator has raised, 
    [StopIteration]; a generator that has raised stays finished and
    leaves the stream alone. *)
Theorem follow_never_yields_line g s :
  (forall line, fst (fst (generator_next g s)) <> Ok (Some line))
  /\ (forall e, fst (fst (generator_next g s)) = Raise e ->
        (e = AttributeError "suffix_line_terminator" \/ e = StopIteration)
        /\ Tailer.g_state (snd (fst (generator_next g s)))
           = Tailer.GenFinished)
  /\ (Tailer.g_state g = Tailer.GenFinished ->
      generator_next g s = (Raise StopIteration, g, s)).
Proof.
  pose proof (generator_next_outcome g s) as H.
  split; [|split].
  - intros line E. rewrite E in H. discriminate.
  - intros e E. rewrite E in H. split; [exact H|].
    unfold generator_next in *.
    destruct (Tailer.g_state g) as [|trailing|] eqn:Eg;
      [| |simpl; exact Eg];
      destruct (Tailer.follow_loop _ _ _ _) as [[[l t]|e'] s'];
      simpl in *; try discriminate; reflexivity.
  - intros Eg. unfold generator_next. rewrite Eg. reflexivity.
Qed.

(** X9.  [follow] starts the session at the end of the stream, wherever
    the cursor was, with the default chunk size; and while nothing is
    appended, a poll yields the no-line marker and leaves the cursor at
    the end. *)
Theorem follow_starts_at_end s :
  let s0 := mkStream (s_data s) (length (s_data s)) in
  follow s = (Ok (Tailer.follow (Tailer.mk 1024)), s0)
  /\ generator_next (Tailer.follow (Tailer.mk 1024)) s0
     = (Ok None,
        Tailer.mkGen (Tailer.mk 1024) (Tailer.GenSuspended true), s0).
Proof.
  cbv zeta. split.
  - unfold follow, Tailer.init, bind, Stream.seek, ret.
    change (power_of_2 1024) with 1024.
    rewrite Z.add_0_r, Z.max_r by (unfold len; lia).
    unfold len. rewrite Nat2Z.id. reflexivity.
  - set (s0 := mkStream (s_data s) (length (s_data s))).
    assert (Hfrom : read_from s0 = length (s_data s))
      by (apply read_from_inside; simpl; lia).
    assert (Hline : line_at s0 = []).
    { unfold line_at. rewrite Hfrom. simpl. rewrite skipn_all.
      reflexivity. }
    unfold generator_next. cbn [Tailer.follow Tailer.g_state Tailer.g_self].
    cbn [Tailer.follow_loop]. unfold bind. rewrite follow_body_eq.
    cbv zeta. rewrite Hline, Hfrom. reflexivity.
Qed.

(** ** The states of a [follow_path] instance *)

Section FollowPathStates.

Context {text : Type} (decode : bytes -> result text).

Import FollowPath.

Lemma nth_error_nil_none {A} (n : nat) : nth_error (@nil A) n = None.
Proof. destruct n; reflexivity. Qed.

Lemma poll_flagged st g :
  unopened_while_flagged st -> unopened_while_flagged (snd (poll st g)).
Proof.
  intros H. unfold unopened_while_flagged.
  destruct (poll_fields st g) as (_ & -> & _). intros Hflag.
  specialize (H Hflag). unfold poll. rewrite H, nth_error_nil_none.
  exact H.
Qed.

Lemma close_flagged st h :
  unopened_while_flagged st -> unopened_while_flagged (close st h).
Proof.
  intros H. unfold unopened_while_flagged.
  destruct (close_fields st h) as (_ & _ & ->). intros Hflag.
  specialize (H Hflag). unfold close. rewrite H, nth_error_nil_none.
  exact H.
Qed.

Lemma check_identity_flagged a st :
  unopened_while_flagged st ->
  unopened_while_flagged (snd (check_identity a st)).
Proof.
  intros H. unfold check_identity.
  destruct (follow_generator st); [|exact H].
  destruct (is_file_changed a st) as [[|]|e]; [|exact H|exact H].
  unfold close_following_file.
  destruct (following_file st) as [h|]; [|exact H]. simpl.
  apply (close_flagged st h) in H. exact H.
Qed.

Lemma open_new_stream_flagged a st :
  unopened_while_flagged st ->
  unopened_while_flagged (snd (open_new_stream a st)).
Proof.
  intros H. unfold open_new_stream.
  destruct (follow_generator st); [exact H|].
  destruct (isfile_open a); [|exact H].
  unfold reopen, open_failed.
  destruct (io_open a) as [[ino data]|].
  - unfold open_and_follow, Tailer.init.
    assert (Hdone : forall st' g, follow_from_end_on_open st' = false ->
              unopened_while_flagged (snd (poll st' g))).
    { intros st' g Hf. unfold unopened_while_flagged.
      destruct (poll_fields st' g) as (_ & -> & _). congruence. }
    destruct (follow_from_end_on_open st); simpl; apply Hdone; reflexivity.
  - simpl. destruct (following_file st) as [h|]; [|exact H].
    apply (close_flagged st h) in H. exact H.
Qed.

Lemma next_flagged a st :
  unopened_while_flagged st ->
  unopened_while_flagged (snd (next decode a st)).
Proof.
  intros H. unfold next.
  assert (H1 : unopened_while_flagged
                 (snd match follow_generator st with
                      | Some g => poll st g
                      | None => (Ok None, st)
                      end))
    by (destruct (follow_generator st); [apply poll_flagged|]; exact H).
  destruct (match follow_generator st with
            | Some g => poll st g
            | None => (Ok None, st)
            end) as [[[line|]|e] st1]; simpl in H1;
    [exact H1 | | exact H1].
  pose proof (check_identity_flagged a st1 H1) as H2.
  destruct (check_identity a st1) as [[u|e] st2]; simpl in *; [|exact H2].
  pose proof (open_new_stream_flagged a st2 H2) as H3.
  destruct (open_new_stream a st2) as [[line|e] st3]; exact H3.
Qed.

Lemma next_invariant a st :
  invariant st -> invariant (snd (next decode a st)).
Proof.
  intros Hinv. unfold next.
  assert (H1 : invariant (snd match follow_generator st with
                              | Some g => poll st g
                              | None => (Ok None, st)
                              end)).
  { destruct (follow_generator st) as [g|] eqn:Hgen; [|exact Hinv].
    destruct (poll_fields st g) as (Hf & _ & Hg).
    unfold invariant in *. rewrite Hf. split.
    - intros E. exfalso. apply Hg; [rewrite Hgen; discriminate | exact E].
    - intros E. apply Hinv in E. rewrite Hgen in E. discriminate. }
  destruct (match follow_generator st with
            | Some g => poll st g
            | None => (Ok None, st)
            end) as [[[line|]|e] st1]; simpl in H1;
    [exact H1 | | exact H1].
  destruct (check_identity_spec a st1 H1) as [Hi2 _].
  destruct (check_identity a st1) as [[u|e] st2]; simpl in *; [|exact Hi2].
  destruct (open_new_stream_spec a st2 Hi2) as [Hi3 _].
  destruct (open_new_stream a st2) as [[line|e] st3]; exact Hi3.
Qed.

Lemma nth_error_set_nth_same {A} (l : list A) : forall i x f,
  nth_error l i = Some f -> nth_error (set_nth l i x) i = Some x.
Proof.
  induction l as [|y l IH]; intros [|i] x f; simpl; try discriminate;
    [reflexivity | apply IH].
Qed.

Lemma nth_error_set_nth_other {A} (l : list A) : forall i j x,
  i <> j -> nth_error (set_nth l i x) j = nth_error l j.
Proof.
  induction l as [|y l IH]; intros [|i] [|j] x Hij; simpl;
    try reflexivity; try contradiction.
  apply IH. congruence.
Qed.

(** A poll keeps every file object, its inode and whether it is closed. *)
Lemma poll_file st g h f :
  nth_error (files st) h = Some f ->
  exists f1, nth_error (files (snd (poll st g))) h = Some f1
             /\ f_ino f1 = f_ino f /\ f_closed f1 = f_closed f.
Proof.
  intros Hf. unfold poll.
  destruct (nth_error (files st) (gr_file g)) as [f0|] eqn:E0;
    [|exists f; auto].
  destruct (if f_closed f0 then _ else _) as [[r gen'] s']. simpl.
  destruct (Nat.eq_dec (gr_file g) h) as [Heq | Hne].
  - rewrite Heq in *. rewrite (nth_error_set_nth_same _ _ _ _ E0).
    rewrite Hf in E0. inversion E0; subst. eexists; simpl; auto.
  - rewrite nth_error_set_nth_other by exact Hne. exists f; auto.
Qed.

(** X10.  In every state an instance can reach, by [__init__], by calls of
    [next] under any answers of the operating system and by writes to the
    files, a generator is stored exactly when an open file is, and while
    [follow_from_end_on_open] is set no file has been opened yet: only the
    first open of an instance can start at the end of the file. *)
Theorem reachable_states st :
  reachable decode st ->
  invariant st /\ (follow_from_end_on_open st = true -> files st = []).
Proof.
  induction 1 as [isfile opened st Hinit | a st _ [Hinv Hflag]
                 | h data st _ [Hinv Hflag]].
  - split; [eapply init_invariant; exact Hinit|].
    unfold init in Hinit. destruct isfile.
    + destruct opened as [[ino data]|]; [|discriminate].
      unfold open_and_follow, Tailer.init in Hinit. simpl in Hinit.
      inversion Hinit. simpl. discriminate.
    + inversion Hinit. reflexivity.
  - split; [apply next_invariant; exact Hinv|].
    apply next_flagged. exact Hflag.
  - unfold written.
    destruct (nth_error (files st) h) as [f|] eqn:Ef; [|auto].
    split; [exact Hinv|]. simpl. intros Hf.
    rewrite (Hflag Hf), nth_error_nil_none in Ef. discriminate.
Qed.

(** A new file object is the last of [files]; a poll of the session that
    reads it replaces it in place. *)
Lemma set_nth_app_length {A} (l : list A) (x y : A) :
  set_nth (l ++ [x]) (length l) y = l ++ [y].
Proof. induction l as [|z l IH]; simpl; [|rewrite IH]; reflexivity. Qed.

Lemma nth_error_app_length {A} (l : list A) (x : A) :
  nth_error (l ++ [x]) (length l) = Some x.
Proof. induction l as [|z l IH]; simpl; [reflexivity | exact IH]. Qed.

(** The first poll of a session that starts at the end of its stream. *)
Lemma generator_next_at_end data :
  generator_next (Tailer.follow (Tailer.mk 1024))
    (mkStream data (length data))
  = (Ok None, Tailer.mkGen (Tailer.mk 1024) (Tailer.GenSuspended true),
     mkStream data (length data)).
Proof.
  set (s0 := mkStream data (length data)).
  assert (Hfrom : read_from s0 = length data)
    by (apply read_from_inside; simpl; lia).
  assert (Hline : line_at s0 = []).
  { unfold line_at. rewrite Hfrom. simpl. rewrite skipn_all.
    reflexivity. }
  unfold generator_next. cbn [Tailer.follow Tailer.g_state Tailer.g_self].
  cbn [Tailer.follow_loop]. unfold bind. rewrite follow_body_eq.
  cbv zeta. rewrite Hline, Hfrom. reflexivity.
Qed.

(** The open in [next], with the state [st0] it happens in: the instance
    follows nothing when [next] is entered; or the file it follows has
    nothing to yield and the path names no file, cannot be examined or
    names a file of another inode, so that [next] closes the file and
    forgets it with its generator. *)
Lemma next_open_spec a st st0 ino data :
  isfile_open a = true ->
  io_open a = Some (ino, data) ->
  (follow_generator st = None /\ st0 = st)
  \/ (exists g h f,
        follow_generator st = Some g
        /\ following_file st = Some h
        /\ nth_error (files st) h = Some f
        /\ f_closed f = false
        /\ fst (poll st g) = Ok None
        /\ (isfile_check a = false \/ stat_st_ino a = None
            \/ exists i, stat_st_ino a = Some i /\ i <> f_ino f)
        /\ st0 = discard (close (snd (poll st g)) h)) ->
  let h' := length (files st0) in
  let start := if follow_from_end_on_open st then length data else 0%nat in
  next decode a st
  = (let '(r, gen, s') :=
       generator_next (Tailer.follow (Tailer.mk 1024))
         (mkStream data start) in
     (match r with
      | Ok line => return_line decode line
      | Raise e => Raise e
      end,
      mkState (files st0 ++ [mkFile ino s' false]) (Some h')
        (Some (mkRef gen h')) false)).
Proof.
  intros Hisfile Hopen Hcase. cbv zeta.
  assert (Hreopen : follow_generator st0 = None ->
            follow_from_end_on_open st0 = follow_from_end_on_open st ->
            match open_new_stream a st0 with
            | (Ok line, st') => (return_line decode line, st')
            | (Raise e, st') => (Raise e, st')
            end
            = (let '(r, gen, s') :=
                 generator_next (Tailer.follow (Tailer.mk 1024))
                   (mkStream data
                      (if follow_from_end_on_open st then length data
                       else 0%nat)) in
               (match r with
                | Ok line => return_line decode line
                | Raise e => Raise e
                end,
                mkState (files st0 ++ [mkFile ino s' false])
                  (Some (length (files st0)))
                  (Some (mkRef gen (length (files st0)))) false))).
  { intros Hgen0 Hflag0. unfold open_new_stream.
    rewrite Hgen0, Hisfile, (reopen_spec a st0 ino data Hopen). cbv zeta.
    rewrite Hflag0. unfold poll.
    cbn [files gr_file gr_gen following_file follow_from_end_on_open].
    rewrite nth_error_app_length.
    cbn [f_closed f_ino f_stream]. change (power_of_2 1024) with 1024.
    destruct (generator_next _ _) as [[r gen] s'].
    rewrite set_nth_app_length. destruct r as [line|e]; reflexivity. }
  destruct Hcase as [[Hgen ->] | (g & h & f & Hgen & Hfile & Hf & Hcl & Hpoll
                                  & Hchanged & ->)].
  - unfold next. rewrite Hgen. unfold check_identity. rewrite Hgen.
    apply Hreopen; [exact Hgen | reflexivity].
  - unfold next. rewrite Hgen.
    destruct (poll_fields st g) as (Hfile1 & Hflag1 & Hgen1).
    destruct (poll_file st g h f Hf) as (f1 & Hf1 & Hino & Hcl1).
    destruct (poll st g) as [r st1]. simpl in *. subst r.
    unfold check_identity.
    destruct (follow_generator st1) as [g1|] eqn:Eg1;
      [|exfalso; apply Hgen1; [rewrite Hgen; discriminate | reflexivity]].
    assert (Hch : is_file_changed a st1 = Ok true).
    { unfold is_file_changed. rewrite Hfile1, Hfile, Hf1, Hcl1, Hcl, Hino.
      destruct Hchanged as [-> | [-> | (i & -> & Hi)]];
        [reflexivity | destruct (isfile_check a); reflexivity |].
      destruct (isfile_check a); [|reflexivity]. simpl.
      apply Nat.eqb_neq in Hi. rewrite Hi. reflexivity. }
    rewrite Hch. unfold close_following_file. rewrite Hfile1, Hfile.
    apply Hreopen; [reflexivity|].
    unfold discard. simpl.
    destruct (close_fields st1 h) as (_ & _ & ->). exact Hflag1.
Qed.

(** X11.  When [next] opens the path and the open succeeds, the new
    session starts at the end of the file if [follow_from_end_on_open] is
    set and at offset 0 otherwise, the flag is cleared, the new file object
    is stored with the new generator, and [next] returns what the first
    poll of the new session gives.  [next] reaches the open when the
    instance follows nothing; and when the file it follows has nothing to
    yield and the path names no file, cannot be examined or names a file
    of another inode: the file followed is then closed and forgotten
    first, and where no file was opened while the flag was set the new
    session starts at offset 0.  A session that starts at the end gives
    the no-line marker at its first poll, and so does [next]. *)
Theorem next_opens a st st0 ino data :
  isfile_open a = true ->
  io_open a = Some (ino, data) ->
  (follow_generator st = None /\ st0 = st)
  \/ (exists g h f,
        follow_generator st = Some g
        /\ following_file st = Some h
        /\ nth_error (files st) h = Some f
        /\ f_closed f = false
        /\ fst (poll st g) = Ok None
        /\ (isfile_check a = false \/ stat_st_ino a = None
            \/ exists i, stat_st_ino a = Some i /\ i <> f_ino f)
        /\ st0 = discard (close (snd (poll st g)) h)) ->
  let h' := length (files st0) in
  let start := if follow_from_end_on_open st then length data else 0%nat in
  next decode a st
  = (let '(r, gen, s') :=
       generator_next (Tailer.follow (Tailer.mk 1024))
         (mkStream data start) in
     (match r with
      | Ok line => return_line decode line
      | Raise e => Raise e
      end,
      mkState (files st0 ++ [mkFile ino s' false]) (Some h')
        (Some (mkRef gen h')) false))
  /\ (follow_from_end_on_open st = true ->
      next decode a st
      = (Ok None,
         mkState
           (files st0 ++ [mkFile ino (mkStream data (length data)) false])
           (Some h')
           (Some (mkRef (Tailer.mkGen (Tailer.mk 1024)
                           (Tailer.GenSuspended true)) h'))
           false))
  /\ (unopened_while_flagged st -> follow_generator st <> None ->
      start = 0%nat).
Proof.
  intros Hisfile Hopen Hcase. cbv zeta.
  pose proof (next_open_spec a st st0 ino data Hisfile Hopen Hcase) as E.
  cbv zeta in E. split; [exact E|]. split.
  - intros Hflag. rewrite E, Hflag, generator_next_at_end. reflexivity.
  - intros Hun Hgen.
    destruct Hcase as [[Hnone _] | (g & h & f & _ & _ & Hf & _)];
      [contradiction|].
    destruct (follow_from_end_on_open st) eqn:Hflag; [|reflexivity].
    rewrite (Hun Hflag), nth_error_nil_none in Hf. discriminate.
Qed.

(** X12.  While nothing is followed and the path names no file, or the
    file cannot be opened, [next] returns the no-line marker, raises
    nothing and leaves the instance as it is. *)
Theorem next_unopened a st :
  follow_generator st = None ->
  following_file st = None ->
  isfile_open a = false \/ io_open a = None ->
  next decode a st = (Ok None, st).
Proof.
  intros Hgen Hfile Hpath. unfold next. rewrite Hgen.
  unfold check_identity. rewrite Hgen.
  unfold open_new_stream. rewrite Hgen.
  destruct (isfile_open a); [|reflexivity].
  destruct Hpath as [? | Hopen]; [discriminate|].
  unfold reopen, open_failed. rewrite Hopen, Hfile.
  destruct st; simpl in *; subst; reflexivity.
Qed.

(** X13.  When the session being followed has nothing to yield and the
    path no longer names a file, [next] closes the file object, forgets
    file and generator together, and returns the no-line marker. *)
Theorem next_path_gone a st g h f :
  follow_generator st = Some g ->
  following_file st = Some h ->
  nth_error (files st) h = Some f ->
  fst (poll st g) = Ok None ->
  isfile_check a = false ->
  isfile_open a = false ->
  fst (next decode a st) = Ok None
  /\ follow_generator (snd (next decode a st)) = None
  /\ following_file (snd (next decode a st)) = None
  /\ exists f', nth_error (files (snd (next decode a st))) h = Some f'
                /\ f_closed f' = true /\ f_ino f' = f_ino f.
Proof.
  intros Hgen Hfile Hf Hpoll Hcheck Hopen. unfold next. rewrite Hgen.
  destruct (poll_fields st g) as (Hfile1 & _ & Hgen1).
  destruct (poll_file st g h f Hf) as (f1 & Hf1 & Hino & _).
  destruct (poll st g) as [r st1]. simpl in *. subst r.
  unfold check_identity.
  destruct (follow_generator st1) as [g1|] eqn:Eg1;
    [|exfalso; apply Hgen1; [rewrite Hgen; discriminate | reflexivity]].
  unfold is_file_changed. rewrite Hcheck. simpl.
  unfold close_following_file. rewrite Hfile1, Hfile.
  unfold open_new_stream. simpl. rewrite Hopen.
  repeat split.
  unfold close. rewrite Hf1. simpl.
  rewrite (nth_error_set_nth_same _ _ _ _ Hf1).
  eexists; simpl; auto.
Qed.

End FollowPathStates.

Lemma next_opens_witness :
  FollowPath.next (@Ok bytes) rotated following
  = (Raise (AttributeError "suffix_line_terminator"),
     FollowPath.mkState
       [FollowPath.mkFile 1 (mkStream [] 0) true;
        FollowPath.mkFile 2 (mkStream (b "Line 4" ++ [LF]) 7) false]
       (Some 1%nat)
       (Some (FollowPath.mkRef
                (Tailer.mkGen (Tailer.mk 1024) Tailer.GenFinished) 1))
       false).
Proof.
  refine (proj1 (next_opens (@Ok bytes) rotated following
                   (FollowPath.discard
                      (FollowPath.close
                         (snd (FollowPath.poll following
                                 (FollowPath.mkRef
                                    (Tailer.follow (Tailer.mk 1024)) 0)))
                         0))
                   2%nat (b "Line 4" ++ [LF]) eq_refl eq_refl _)).
  right.
  exists (FollowPath.mkRef (Tailer.follow (Tailer.mk 1024)) 0), 0%nat,
    (FollowPath.mkFile 1 (mkStream [] 0) false).
  repeat split; try reflexivity.
  right; right. exists 2%nat. split; [reflexivity | simpl; lia].
Defined.

Lemma next_unopened_witness :
  FollowPath.next (@Ok bytes)
    (FollowPath.mkAnswers false None true None)
    (FollowPath.mkState [] None None true)
  = (Ok None, FollowPath.mkState [] None None true).
Proof.
  apply (next_unopened (@Ok bytes)); [reflexivity | reflexivity |].
  right; reflexivity.
Defined.

Lemma reachable_states_witness :
  FollowPath.invariant
    (snd (FollowPath.next (@Ok bytes) rotated following)).
Proof.
  apply (reachable_states (@Ok bytes)).
  apply FollowPath.reach_next.
  apply (FollowPath.reach_init (@Ok bytes) true (Some (1%nat, []))).
  vm_compute. reflexivity.
Defined.

Lemma next_path_gone_witness :
  fst (FollowPath.next (@Ok bytes)
         (FollowPath.mkAnswers false None false None) following)
  = Ok None.
Proof.
  apply (next_path_gone (@Ok bytes)
           (FollowPath.mkAnswers false None false None) following
           (FollowPath.mkRef (Tailer.follow (Tailer.mk 1024)) 0) 0%nat
           (FollowPath.mkFile 1 (mkStream [] 0) false));
    reflexivity.
Defined.

Section FollowPathOutcome.

Context {text : Type} (decode : bytes -> result text).

Import FollowPath.

Lemma poll_outcome st g line : fst (poll st g) <> Ok (Some line).
Proof.
  unfold poll. destruct (nth_error (files st) (gr_file g)) as [f|];
    [|simpl; discriminate].
  destruct (f_closed f); [simpl; discriminate|].
  pose proof (generator_next_outcome (gr_gen g) (f_stream f)) as H.
  destruct (generator_next (gr_gen g) (f_stream f)) as [[r gen'] s'].
  simpl in *. intros E. rewrite E in H. discriminate.
Qed.

Lemma open_new_stream_outcome a st line :
  fst (open_new_stream a st) <> Ok (Some line).
Proof.
  unfold open_new_stream.
  destruct (follow_generator st); [simpl; discriminate|].
  destruct (isfile_open a); [|simpl; discriminate].
  unfold reopen, open_failed.
  destruct (io_open a) as [[ino data]|]; [|simpl; discriminate].
  unfold open_and_follow, Tailer.init.
  destruct (follow_from_end_on_open st); simpl; apply poll_outcome.
Qed.

(** X19.  [FollowPathGenerator.next] never returns a line: for every
    state of the instance and every answer of the operating system it
    returns the no-line marker or raises, since no poll of the session it
    wraps yields a line. *)
Theorem follow_path_never_returns_line a st t :
  fst (next decode a st) <> Ok (Some t).
Proof.
  unfold next.
  assert (H1 : forall line,
            fst match follow_generator st with
                | Some g => poll st g
                | None => (Ok None, st)
                end <> Ok (Some line)).
  { intros line. destruct (follow_generator st);
      [apply poll_outcome | simpl; discriminate]. }
  destruct (match follow_generator st with
            | Some g => poll st g
            | None => (Ok None, st)
            end) as [[[line|]|e] st1]; simpl in H1.
  - exfalso. apply (H1 line). reflexivity.
  - destruct (check_identity a st1) as [[u|e] st2]; [|simpl; discriminate].
    pose proof (open_new_stream_outcome a st2) as H2.
    destruct (open_new_stream a st2) as [[[line|]|e] st3]; simpl in *;
      try discriminate.
    exfalso. apply (H2 line). reflexivity.
  - simpl. discriminate.
Qed.

End FollowPathOutcome.

(** ** [tail] on a stream that fits in one chunk *)

Lemma previous_scan_ok fuel : forall self data data_len where_ offset
    data_where s,
  0 <= where_ - offset - data_len ->
  data_where <= Z.of_nat fuel ->
  exists r s',
    Tailer.previous_scan fuel self data data_len where_ offset data_where s
    = (Ok r, s').
Proof.
  induction fuel as [|fuel IH];
    intros self data data_len where_ offset data_where s Hroom Hfuel.
  - simpl. destruct (Z.ltb_spec 0 data_where); [simpl in Hfuel; lia|].
    unfold ret. eauto.
  - simpl. destruct (Z.ltb_spec 0 data_where) as [Hpos | Hnp];
      [|unfold ret; eauto].
    destruct (Tailer.suffix self _) as [terminator|] eqn:Hsuf.
    + apply term_len in Hsuf.
      destruct (_ && _); [apply IH; lia|].
      unfold bind, Tailer.seek, Stream.seek, Tailer.tell, Stream.tell, ret.
      destruct (Z.ltb_spec (where_ - offset - (data_len - data_where)) 0);
        [lia | eauto].
    + apply IH; lia.
Qed.

Lemma previous_peek_no_fold self where_ offset data_len data s :
  data <> [] ->
  Z.of_nat (s_pos s) <= data_len + 1 ->
  Tailer.previous_peek self where_ offset data_len data s
  = (Ok (data_len, data), s).
Proof.
  intros Hne Hpos. unfold Tailer.previous_peek, bind.
  change (Tailer.in_terminators [CR; LF]) with true. cbv beta iota.
  destruct data as [|x data]; [contradiction|].
  unfold Tailer.getitem. simpl. unfold ret.
  destruct (Byte.eqb x LF); [|reflexivity].
  unfold Tailer.tell, Stream.tell.
  destruct (Z.ltb_spec (data_len + 1) (Z.of_nat (s_pos s))); [lia|].
  reflexivity.
Qed.

(** When the bytes before the cursor fit in one chunk, [previous] reads
    them at once and does not raise. *)
Lemma previous_one_chunk self data pos :
  (1 <= pos <= length data)%nat ->
  Z.of_nat pos <= Tailer.size self ->
  exists p,
    Tailer.previous self (mkStream data pos)
    = (Ok p, mkStream data (Z.to_nat p))
    /\ 0 <= p < Z.of_nat pos.
Proof.
  intros Hpos Hsize.
  unfold Tailer.previous, bind at 1, Stream.tell. cbn [s_pos].
  set (w := Z.of_nat pos).
  remember (S (Z.to_nat w + Z.to_nat (- Tailer.size self))) as fuel
    eqn:Hfuel.
  cbn [Tailer.previous_loop].
  destruct (Z.eqb_spec 0 w) as [Hz | _]; [unfold w in Hz; lia|].
  assert (Hrs : (if Tailer.size self <=? w then Tailer.size self else w)
                = w)
    by (destruct (Z.leb_spec (Tailer.size self) w); unfold w in *; lia).
  rewrite Hrs.
  replace (w - 0 - w) with 0 by lia.
  unfold bind at 1. unfold Tailer.seek at 1, Stream.seek.
  change (0 <? 0) with false. cbv beta iota. cbn [s_data].
  change (Z.to_nat 0) with 0%nat.
  unfold bind at 1. rewrite read_eq by (unfold w; lia).
  cbv beta iota. cbn [skipn].
  replace (Z.to_nat w) with pos by (unfold w; lia).
  set (got := firstn pos data).
  assert (Hlen : length got = pos)
    by (unfold got; rewrite length_firstn; lia).
  assert (Hne : got <> [])
    by (intros E; rewrite E in Hlen; simpl in Hlen; lia).
  rewrite Hlen. cbn [Nat.add].
  unfold bind at 1.
  rewrite previous_peek_no_fold;
    [|exact Hne | unfold len; simpl; lia].
  cbv beta iota. unfold bind at 1.
  destruct (previous_scan_ok (length got) self got (len got) w 0 (len got)
              (mkStream data pos)) as (r & s' & Hscan);
    [unfold len, w; lia | unfold len; lia |].
  rewrite Hscan.
  pose proof (previous_scan_found _ _ _ _ _ _ _ _ _ _ Hscan) as Hfound.
  destruct r as [q|].
  - destruct Hfound as (dw & Hdw & Hnot & Hq & Hnn & ->).
    unfold ret. exists q. split; [reflexivity|].
    assert (dw <> len got) by tauto. unfold len, w in *. lia.
  - subst s'. subst fuel. cbn [Tailer.previous_loop].
    replace (0 + len got) with w by (unfold len, w; lia).
    rewrite Z.eqb_refl.
    destruct (Z.eqb_spec w 0) as [Hz | _]; [unfold w in Hz; lia|].
    exists 0. unfold w. split; [reflexivity | lia].
Qed.

Lemma previous_at_start self data :
  Tailer.previous self (mkStream data 0) = (Ok (-1), mkStream data 0).
Proof. reflexivity. Qed.

(** [tail] does not raise when [previous] does not raise anywhere inside
    the stream. *)
Section TailOk.

Variable self : Tailer.t.
Variable data : bytes.
Hypothesis previous_ok : forall pos,
  (1 <= pos <= length data)%nat ->
  exists p,
    Tailer.previous self (mkStream data pos)
    = (Ok p, mkStream data (Z.to_nat p))
    /\ 0 <= p < Z.of_nat pos.

Lemma tail_loop_ok fuel : forall lines pos,
  (pos < fuel)%nat -> (pos <= length data)%nat ->
  exists pos',
    Tailer.tail_loop fuel self lines (mkStream data pos)
    = (Ok tt, mkStream data pos')
    /\ (pos' <= length data)%nat.
Proof.
  induction fuel as [|fuel IH]; intros lines pos Hfuel Hin; [lia|].
  cbn [Tailer.tail_loop].
  destruct (lines =? 0); [exists pos; split; [reflexivity | exact Hin]|].
  unfold bind.
  destruct pos as [|pos].
  - rewrite previous_at_start. simpl. exists 0%nat. split; [reflexivity | lia].
  - destruct (previous_ok (S pos)) as (p & Hprev & Hp); [lia|].
    rewrite Hprev.
    destruct (Z.eqb_spec p (-1)) as [Hm | _]; [lia|].
    apply IH; lia.
Qed.

Lemma tail_ok_anywhere lines pos :
  exists result,
    Tailer.tail self lines (mkStream data pos)
    = (Ok result, mkStream data (length data)).
Proof.
  unfold Tailer.tail, bind at 1. unfold Tailer.seek at 1, Stream.seek.
  cbn [s_data]. rewrite Z.add_0_r, Z.max_r by (unfold len; lia).
  unfold len at 1 2. rewrite Nat2Z.id.
  unfold bind at 1.
  destruct (tail_loop_ok (S (length data)) lines (length data))
    as (pos' & Hloop & Hin); [lia | lia |].
  rewrite Hloop.
  unfold bind, Stream.read, ret. cbn [s_data s_pos].
  change (-1 <? 0) with true. cbv beta iota.
  rewrite length_skipn.
  replace (pos' + (length data - pos'))%nat with (length data) by lia.
  eexists. reflexivity.
Qed.

End TailOk.

Lemma tail_ok self lines s :
  len (s_data s) <= Tailer.size self ->
  exists result,
    Tailer.tail self lines s
    = (Ok result, mkStream (s_data s) (length (s_data s))).
Proof.
  intros Hsize. destruct s as [data pos]. cbn [s_data] in *.
  apply tail_ok_anywhere. intros pos' Hpos.
  apply previous_one_chunk; [exact Hpos | unfold len in Hsize; lia].
Qed.

(** The instance the module-level functions build. *)
Lemma init_chunk_size read_size s :
  1 <= read_size <= 2 ^ 32 ->
  Tailer.init read_size false s = (Ok (Tailer.mk (power_of_2 read_size)), s)
  /\ read_size <= power_of_2 read_size.
Proof.
  intros Hr. split; [reflexivity|].
  apply power_of_2_upto_2_32. exact Hr.
Qed.

(** X14.  When the whole stream fits in one chunk (its length is at most
    the chunk size, as for any stream of up to 1024 bytes with the default
    chunk size), [tail] does not raise, for any number of lines; it leaves
    the cursor at the end of the stream and the bytes as they were.  So
    does the module-level [tail] for a read size from 1 to [2 ^ 32] that
    is not below the length of the stream. *)
Theorem tail_one_chunk lines s :
  (forall self,
     len (s_data s) <= Tailer.size self ->
     exists result,
       Tailer.tail self lines s
       = (Ok result, mkStream (s_data s) (length (s_data s))))
  /\ (forall read_size,
        1 <= read_size <= 2 ^ 32 -> len (s_data s) <= read_size ->
        exists result,
          tail lines read_size s
          = (Ok result, mkStream (s_data s) (length (s_data s)))).
Proof.
  split.
  - intros self. apply tail_ok.
  - intros read_size Hr Hlen. unfold tail, bind.
    destruct (init_chunk_size read_size s Hr) as [-> Hge].
    apply tail_ok. simpl. lia.
Qed.

Lemma tail_one_chunk_witness :
  exists result,
    tail 6 1024 (file scenario_A)
    = (Ok result, mkStream scenario_A (length scenario_A)).
Proof.
  destruct (tail_one_chunk 6 (file scenario_A)) as [_ H].
  apply (H 1024); [lia | vm_compute; discriminate].
Defined.

(** ** [tail] with a chunk size of 1 *)

Lemma previous_peek_byte self where_ offset x data pos :
  (1 <= pos <= length data)%nat ->
  Z.of_nat pos = where_ - offset ->
  exists dl d,
    Tailer.previous_peek self where_ offset 1 [x] (mkStream data pos)
    = (Ok (dl, d), mkStream data pos)
    /\ dl = len d /\ 1 <= dl <= Z.of_nat pos.
Proof.
  intros Hpos Hinv. unfold Tailer.previous_peek, bind.
  change (Tailer.in_terminators [CR; LF]) with true. cbv beta iota.
  unfold Tailer.getitem at 1. simpl. unfold ret at 1. cbv beta iota.
  destruct (Byte.eqb x LF).
  2:{ exists 1, [x]. unfold ret. repeat split; try reflexivity; lia. }
  unfold Tailer.tell, Stream.tell. cbn [s_pos].
  destruct (Z.ltb_spec 2 (Z.of_nat pos)) as [Hroom | Hno].
  2:{ exists 1, [x]. unfold ret. repeat split; try reflexivity; lia. }
  destruct (Z.ltb_spec (where_ - offset - 1 - 1) 0); [lia|].
  cbn [s_data s_pos].
  destruct (skipn (Z.to_nat (where_ - offset - 1 - 1)) data)
    as [|y r] eqn:Eskip.
  { apply (f_equal (@length byte)) in Eskip.
    rewrite length_skipn in Eskip. simpl in Eskip. lia. }
  unfold Tailer.getitem. simpl.
  destruct (Z.ltb_spec (Z.of_nat pos) 0); [lia|].
  rewrite Nat2Z.id. unfold ret.
  destruct (Byte.eqb y CR).
  - exists 2, [CR; x]. repeat split; try reflexivity; lia.
  - exists 1, [x]. repeat split; try reflexivity; lia.
Qed.

Lemma previous_loop_chunk_1 fuel : forall self where_ offset data pos0,
  Tailer.size self = 1 ->
  0 <= offset <= where_ -> where_ <= len data ->
  where_ - offset < Z.of_nat fuel ->
  exists p s',
    Tailer.previous_loop fuel self where_ offset (mkStream data pos0)
    = (Ok p, s').
Proof.
  induction fuel as [|fuel IH]; intros self where_ offset data pos0
    Hsize Hoff Hin Hfuel; [simpl in Hfuel; lia|].
  cbn [Tailer.previous_loop].
  destruct (Z.eqb_spec offset where_) as [Heq | Hne].
  - destruct (where_ =? 0); [unfold ret; eauto|].
    unfold bind, Tailer.seek, Stream.seek, ret. simpl. eauto.
  - rewrite Hsize.
    destruct (Z.leb_spec 1 where_) as [_ | Hlt]; [|lia].
    unfold bind at 1. unfold Tailer.seek at 1, Stream.seek.
    destruct (Z.ltb_spec (where_ - offset - 1) 0); [lia|].
    cbn [s_data]. unfold bind at 1. rewrite read_eq by lia.
    cbv beta iota. change (Z.to_nat 1) with 1%nat.
    destruct (skipn (Z.to_nat (where_ - offset - 1)) data)
      as [|x r] eqn:Eskip.
    { apply (f_equal (@length byte)) in Eskip.
      rewrite length_skipn in Eskip. simpl in Eskip.
      unfold len in Hin. lia. }
    cbn [firstn length].
    set (pos := (Z.to_nat (where_ - offset - 1) + 1)%nat).
    change (len [x]) with 1.
    destruct (previous_peek_byte self where_ offset x data pos)
      as (dl & d & Hpeek & Hdl & Hbound);
      [unfold pos, len in *; lia | unfold pos; lia|].
    unfold bind at 1. rewrite Hpeek. cbv beta iota.
    destruct (previous_scan_ok (length d) self d dl where_ offset dl
                (mkStream data pos)) as (r0 & s' & Hscan);
      [unfold pos in Hbound; lia | unfold len in Hdl; lia|].
    unfold bind at 1. rewrite Hscan.
    pose proof (previous_scan_found _ _ _ _ _ _ _ _ _ _ Hscan) as Hfound.
    destruct r0 as [q|]; [unfold ret; eauto|].
    subst s'. apply IH; [exact Hsize | | exact Hin |];
      unfold pos in Hbound; lia.
Qed.

Lemma previous_chunk_1 self data pos :
  Tailer.size self = 1 ->
  (1 <= pos <= length data)%nat ->
  exists p,
    Tailer.previous self (mkStream data pos)
    = (Ok p, mkStream data (Z.to_nat p))
    /\ 0 <= p < Z.of_nat pos.
Proof.
  intros Hsize Hpos. unfold Tailer.previous, bind, Stream.tell.
  cbn [s_pos].
  destruct (previous_loop_chunk_1
              (S (S (Z.to_nat (Z.of_nat pos) + Z.to_nat (- Tailer.size self))))
              self (Z.of_nat pos) 0 data pos Hsize) as (p & s' & Hloop);
    [lia | unfold len; lia | lia |].
  rewrite Hloop.
  pose proof Hloop as Hspec.
  apply previous_loop_spec in Hspec; [|lia|lia|lia].
  assert (Hp : p <> -1) by (destruct Hspec as [(_ & ? & _) | (? & _)]; lia).
  apply previous_loop_found in Hloop; [|lia|exact Hp].
  destruct Hloop as (Hd & Hs & Hlt). destruct s' as [data' pos'].
  simpl in *. subst. exists p. split; [reflexivity | exact Hlt].
Qed.

(** X18.  With a chunk size of 1 [tail] does not raise, on any stream and
    for any number of lines; it leaves the cursor at the end of the stream
    and the bytes as they were.  So does the module-level [tail] with a
    read size of 1. *)
Theorem tail_chunk_size_1 lines s :
  (forall self,
     Tailer.size self = 1 ->
     exists result,
       Tailer.tail self lines s
       = (Ok result, mkStream (s_data s) (length (s_data s))))
  /\ (exists result,
        tail lines 1 s
        = (Ok result, mkStream (s_data s) (length (s_data s)))).
Proof.
  assert (H : forall self, Tailer.size self = 1 ->
            exists result,
              Tailer.tail self lines s
              = (Ok result, mkStream (s_data s) (length (s_data s)))).
  { intros self Hsize. destruct s as [data pos]. cbn [s_data].
    apply tail_ok_anywhere. intros pos' Hpos.
    apply previous_chunk_1; assumption. }
  split; [exact H|].
  unfold tail, bind, Tailer.init, ret.
  change (power_of_2 1) with 1. apply H. reflexivity.
Qed.

Lemma tail_chunk_size_1_witness :
  exists result,
    Tailer.tail (Tailer.mk 1) 2 (file two_lines)
    = (Ok result, mkStream two_lines (length two_lines)).
Proof.
  destruct (tail_chunk_size_1 2 (file two_lines)) as [H _].
  apply (H (Tailer.mk 1)). reflexivity.
Defined.

(** ** [head] on lines joined by terminators *)

Lemma first_terminator_line l rest :
  is_line l ->
  first_terminator (l ++ rest)
  = match first_terminator rest with
    | Some (i, t) => Some ((length l + i)%nat, t)
    | None => None
    end.
Proof.
  induction l as [|x l IH]; intros Hl.
  - simpl. destruct (first_terminator rest) as [[i t]|]; reflexivity.
  - apply is_line_cons in Hl. destruct Hl as (Hcr & Hlf & Hl).
    cbn [app first_terminator]. rewrite Hcr, Hlf, IH by exact Hl.
    destruct (first_terminator rest) as [[i t]|]; reflexivity.
Qed.

Lemma first_terminator_term t rest :
  In t Tailer._terminators ->
  (t = [CR] -> starts_with_LF rest = false) ->
  first_terminator (t ++ rest) = Some (0%nat, t).
Proof.
  intros Hin Hcr. simpl in Hin.
  destruct Hin as [<- | [<- | [<- | []]]]; simpl.
  - reflexivity.
  - reflexivity.
  - rewrite (Hcr eq_refl). reflexivity.
Qed.

Lemma first_terminator_join l more :
  is_line l -> separated more ->
  first_terminator (join_lines l more)
  = match more with
    | [] => None
    | (t, _) :: _ => Some (length l, t)
    end.
Proof.
  intros Hl Hsep. destruct more as [|[t l'] more]; cbn [join_lines].
  - rewrite <- (app_nil_r l). rewrite first_terminator_line by exact Hl.
    reflexivity.
  - destruct Hsep as (Hin & Hl' & Hcr & Hsep).
    rewrite first_terminator_line by exact Hl.
    rewrite first_terminator_term; [rewrite Nat.add_0_r; reflexivity
                                   | exact Hin |].
    intros Ht.
    apply join_lines_head; [exact Hl' | exact Hsep | exact (Hcr Ht)].
Qed.

Lemma join_lines_app pre : forall first t l post,
  join_lines first (pre ++ (t, l) :: post)
  = join_lines first pre ++ t ++ join_lines l post.
Proof.
  induction pre as [|[t1 l1] pre IH]; intros first t l post.
  - reflexivity.
  - cbn [app join_lines]. rewrite IH, <- !app_assoc. reflexivity.
Qed.

Lemma separated_app pre : forall more,
  separated (pre ++ more) -> separated pre /\ separated more.
Proof.
  induction pre as [|[t l] pre IH]; intros more H; [simpl; auto|].
  cbn [app separated] in *. destruct H as (Hin & Hl & Hcr & H).
  apply IH in H. destruct H as [Hpre Hmore].
  split; [|exact Hmore].
  split; [exact Hin|]. split; [exact Hl|]. split; [|exact Hpre].
  intros Ht Hnil. specialize (Hcr Ht Hnil).
  destruct pre as [|[t' l'] pre]; [exact I | exact Hcr].
Qed.

Lemma separated_length more :
  separated more -> forall first,
  (length first + length more <= length (join_lines first more))%nat.
Proof.
  induction more as [|[t l] more IH]; intros H first; simpl; [lia|].
  destruct H as (Hin & _ & _ & H).
  specialize (IH H l). rewrite !length_app.
  assert (1 <= length t)%nat; [|lia].
  simpl in Hin. destruct Hin as [<- | [<- | [<- | []]]]; simpl; lia.
Qed.

Lemma skipn_app_exact {A} (a c : list A) : skipn (length a) (a ++ c) = c.
Proof. rewrite skipn_app, skipn_all, Nat.sub_diag. reflexivity. Qed.

(** The loop of [head] over the first lines of a stream. *)
Lemma head_loop_join self t l post pre : forall first data pos fuel,
  1 <= Tailer.size self ->
  skipn pos data = join_lines first (pre ++ (t, l) :: post) ->
  (pos <= length data)%nat ->
  is_line first -> separated (pre ++ (t, l) :: post) ->
  (S (length pre) < fuel)%nat ->
  Tailer.head_loop fuel self (Z.of_nat (S (length pre))) (mkStream data pos)
  = (Ok tt,
     mkStream data (pos + length (join_lines first pre) + length t)).
Proof.
  induction pre as [|[t1 l1] pre IH];
    intros first data pos fuel Hsize Hrest Hin Hfirst Hsep Hfuel.
  - destruct fuel as [|[|fuel]]; [simpl in Hfuel; lia | simpl in Hfuel; lia|].
    cbn [Tailer.head_loop length].
    destruct (Z.eqb_spec (Z.of_nat 1) 0); [lia|].
    unfold bind.
    rewrite next_eq by assumption. cbn [s_data s_pos].
    rewrite Hrest. cbn [app].
    rewrite first_terminator_join by assumption.
    destruct (Z.eqb_spec (Z.of_nat (pos + length first + length t)) (-1));
      [lia|].
    destruct (Z.eqb_spec (Z.of_nat 1 - 1) 0); [reflexivity | lia].
  - destruct fuel as [|fuel]; [lia|].
    cbn [Tailer.head_loop].
    destruct (Z.eqb_spec (Z.of_nat (S (length ((t1, l1) :: pre)))) 0);
      [lia|].
    unfold bind. rewrite next_eq by assumption. cbn [s_data s_pos].
    rewrite Hrest. cbn [app].
    rewrite first_terminator_join by assumption.
    destruct (Z.eqb_spec (Z.of_nat (pos + length first + length t1)) (-1));
      [lia|].
    replace (Z.of_nat (S (length ((t1, l1) :: pre))) - 1)
      with (Z.of_nat (S (length pre))) by (simpl length; lia).
    cbn [app separated] in Hsep. destruct Hsep as (Hin1 & Hl1 & _ & Hsep).
    assert (Hbound : (length first + length t1
                      + length (join_lines l1 (pre ++ (t, l) :: post))
                      = length (skipn pos data))%nat).
    { rewrite Hrest. cbn [app join_lines]. rewrite !length_app. lia. }
    rewrite length_skipn in Hbound.
    rewrite IH with (first := l1); try assumption.
    + cbn [join_lines]. rewrite !length_app.
      f_equal. f_equal. lia.
    + replace (pos + length first + length t1)%nat
        with (length (first ++ t1) + pos)%nat by (rewrite length_app; lia).
      rewrite <- skipn_skipn, Hrest. cbn [app join_lines].
      rewrite app_assoc. apply skipn_app_exact.
    + lia.
    + simpl length in Hfuel. lia.
Qed.

Lemma startswith_nil data : startswith data [] = true.
Proof. destruct data; reflexivity. Qed.

Lemma ends_with_CR_app a c :
  c <> [] -> ends_with_CR (a ++ c) = ends_with_CR c.
Proof.
  intros Hc. unfold ends_with_CR. rewrite rev_app_distr.
  destruct (rev c) as [|y r] eqn:E; [|reflexivity].
  apply (f_equal (@rev byte)) in E. rewrite rev_involutive in E.
  contradiction.
Qed.

Lemma is_line_ends l : is_line l -> ends_with_CR l = false.
Proof.
  intros [Hcr _]. unfold ends_with_CR.
  destruct (rev l) as [|x r] eqn:E; [reflexivity|].
  destruct (Byte.eqb x CR) eqn:Ex; [|reflexivity].
  apply byte_dec_bl in Ex. subst x. exfalso. apply Hcr.
  apply in_rev. rewrite E. left; reflexivity.
Qed.

(** In a stream of separated lines no LF terminator comes right after a
    CR. *)
Lemma join_lines_ends pre : forall first t l post,
  is_line first -> separated (pre ++ (t, l) :: post) ->
  ends_with_CR (join_lines first pre) = true -> t <> [LF].
Proof.
  induction pre as [|[t1 l1] pre IH]; intros first t l post Hfirst Hsep.
  - simpl. rewrite is_line_ends by exact Hfirst. discriminate.
  - cbn [app separated] in Hsep. destruct Hsep as (Hin & Hl1 & Hcr & Hsep).
    cbn [join_lines].
    destruct (join_lines l1 pre) as [|y rest] eqn:Ej.
    + assert (pre = [] /\ l1 = []) as [-> ->].
      { destruct pre as [|[t2 l2] pre].
        - simpl in Ej. auto.
        - exfalso. cbn [join_lines] in Ej.
          apply app_eq_nil in Ej. destruct Ej as [_ Ej].
          apply app_eq_nil in Ej. destruct Ej as [Et _].
          cbn [app separated] in Hsep. destruct Hsep as (Hin2 & _).
          subst t2. simpl in Hin2.
          destruct Hin2 as [? | [? | [? | []]]]; discriminate. }
      rewrite app_nil_r. simpl in Hin.
      destruct Hin as [<- | [<- | [<- | []]]].
      * rewrite ends_with_CR_app by discriminate. discriminate.
      * rewrite ends_with_CR_app by discriminate. discriminate.
      * intros _. exact (Hcr eq_refl eq_refl).
    + rewrite app_assoc, ends_with_CR_app by discriminate.
      rewrite <- Ej. apply (IH l1 t l post Hl1 Hsep).
Qed.

Lemma slice_to_app (a c : bytes) :
  slice_to (a ++ c) (len (a ++ c) - len c) = a.
Proof.
  unfold slice_to, len. rewrite length_app.
  replace (Z.to_nat (Z.of_nat (length a + length c) - Z.of_nat (length c)))
    with (length a) by lia.
  rewrite firstn_app, firstn_all, Nat.sub_diag. simpl.
  apply app_nil_r.
Qed.

(** Cutting off the terminator that closes the last line. *)
Lemma strip_terminator_app data t :
  In t Tailer._terminators ->
  (ends_with_CR data = true -> t <> [LF]) ->
  Tailer.strip_terminator (data ++ t) = data.
Proof.
  intros Hin Hcr. unfold Tailer.strip_terminator, endswith.
  rewrite rev_app_distr. simpl in Hin.
  destruct Hin as [<- | [<- | [<- | []]]]; simpl.
  - rewrite startswith_nil. simpl. apply slice_to_app.
  - unfold ends_with_CR in Hcr.
    destruct (rev data) as [|x r].
    + simpl. apply slice_to_app.
    + simpl in *. destruct (Byte.eqb x CR).
      * exfalso. apply (Hcr eq_refl). reflexivity.
      * simpl. rewrite ?startswith_nil. simpl. apply slice_to_app.
  - rewrite startswith_nil. simpl. apply slice_to_app.
Qed.

Lemma head_join self first pre t l post pos :
  1 <= Tailer.size self ->
  is_line first -> separated (pre ++ (t, l) :: post) ->
  let data := join_lines first (pre ++ (t, l) :: post) in
  Tailer.head self (Z.of_nat (S (length pre))) (mkStream data pos)
  = (Ok match join_lines first pre with
        | [] => []
        | _ :: _ => first :: map snd pre
        end,
     mkStream data (length (join_lines first pre) + length t)).
Proof.
  intros Hsize Hfirst Hsep data.
  pose proof (separated_length _ Hsep first) as Hlen.
  rewrite length_app in Hlen. simpl in Hlen. fold data in Hlen.
  destruct (separated_app _ _ Hsep) as [Hpre Hpost].
  assert (Hdata : data = (join_lines first pre ++ t) ++ join_lines l post)
    by (unfold data; rewrite join_lines_app, app_assoc; reflexivity).
  unfold Tailer.head. cbn [s_data].
  remember (S (length data)) as fuel eqn:Hfuel.
  unfold bind at 1. unfold Tailer.seek at 1, Stream.seek.
  change (0 <? 0) with false. cbv beta iota. cbn [s_data].
  change (Z.to_nat 0) with 0%nat.
  unfold bind at 1.
  rewrite (head_loop_join self t l post pre first data 0 fuel);
    [|exact Hsize | reflexivity | lia | exact Hfirst | exact Hsep | lia].
  cbn [Nat.add].
  unfold bind, Tailer.tell, Stream.tell, Tailer.seek, Stream.seek,
    Stream.read, ret.
  cbn [s_data s_pos].
  change (0 <? 0) with false. cbv beta iota. cbn [s_data s_pos].
  change (Z.to_nat 0) with 0%nat. cbn [skipn].
  destruct (Z.ltb_spec
              (Z.of_nat (length (join_lines first pre) + length t)) 0);
    [lia|].
  rewrite Nat2Z.id.
  assert (Hread : firstn (length (join_lines first pre) + length t) data
                  = join_lines first pre ++ t).
  { rewrite Hdata, <- length_app, firstn_app, firstn_all, Nat.sub_diag.
    simpl. apply app_nil_r. }
  rewrite Hread, length_app.
  rewrite strip_terminator_app;
    [| cbn [separated] in Hpost; tauto
     | apply (join_lines_ends pre first t l post Hfirst Hsep)].
  unfold Tailer.splitlines.
  destruct (join_lines first pre) as [|x J] eqn:Ej; [reflexivity|].
  rewrite <- Ej, re_split_join by assumption. reflexivity.
Qed.

(** X15.  On a stream of lines joined by any mix of the three terminators
    (no terminator CR followed at once by a terminator LF), [head] asked
    for [n] lines, with at least [n] terminators in the stream, returns
    the first [n] lines in their order, whatever the chunk size from 1
    up, and leaves the cursor just after the [n]-th terminator.  The one
    exception: when the first line is empty and [n] is 1, it returns no
    line instead of one empty line. *)
Theorem head_first_lines self first pre t l post pos :
  1 <= Tailer.size self ->
  is_line first -> separated (pre ++ (t, l) :: post) ->
  let data := join_lines first (pre ++ (t, l) :: post) in
  Tailer.head self (Z.of_nat (S (length pre))) (mkStream data pos)
  = (Ok match join_lines first pre with
        | [] => []
        | _ :: _ => first :: map snd pre
        end,
     mkStream data (length (join_lines first pre) + length t)).
Proof. exact (head_join self first pre t l post pos). Qed.

Lemma head_first_lines_witness :
  fst (Tailer.head (Tailer.mk 2) 2
         (file (join_lines (b "Line 1")
                  [([LF], b "Line 2"); (CRLF, b "Line 3")])))
  = Ok [b "Line 1"; b "Line 2"].
Proof.
  refine (f_equal fst
            (head_first_lines (Tailer.mk 2) (b "Line 1")
               [([LF], b "Line 2")] CRLF (b "Line 3") [] 0 _ _ _)).
  - simpl. lia.
  - split; simpl; intuition discriminate.
  - simpl. unfold is_line. simpl. intuition discriminate.
Defined.

Lemma head_loop_ok fuel : forall self lines data pos,
  1 <= Tailer.size self ->
  (pos <= length data)%nat -> (length data - pos < fuel)%nat ->
  exists pos',
    Tailer.head_loop fuel self lines (mkStream data pos)
    = (Ok tt, mkStream data pos')
    /\ (pos' <= length data)%nat.
Proof.
  induction fuel as [|fuel IH]; intros self lines data pos Hsize Hin Hfuel;
    [lia|].
  cbn [Tailer.head_loop].
  destruct (lines =? 0); [exists pos; split; [reflexivity | exact Hin]|].
  unfold bind. rewrite next_eq by assumption. cbn [s_data s_pos].
  destruct (first_terminator (skipn pos data)) as [[i t]|] eqn:E.
  - apply first_terminator_bound in E. rewrite length_skipn in E.
    destruct (Z.eqb_spec (Z.of_nat (pos + i + length t)) (-1)); [lia|].
    apply IH; [exact Hsize | lia | lia].
  - simpl. exists (length data). split; [reflexivity | lia].
Qed.

Lemma head_ok self lines s :
  1 <= Tailer.size self ->
  exists result end_pos,
    Tailer.head self lines s = (Ok result, mkStream (s_data s) end_pos)
    /\ (end_pos <= length (s_data s))%nat.
Proof.
  intros Hsize. destruct s as [data pos]. unfold Tailer.head.
  cbn [s_data]. remember (S (length data)) as fuel eqn:Hfuel.
  unfold bind at 1. unfold Tailer.seek at 1, Stream.seek.
  change (0 <? 0) with false. cbv beta iota. cbn [s_data].
  change (Z.to_nat 0) with 0%nat.
  unfold bind at 1.
  destruct (head_loop_ok fuel self lines data 0 Hsize)
    as (pos' & Hloop & Hin); [lia | lia |].
  rewrite Hloop.
  unfold bind, Tailer.tell, Stream.tell, Tailer.seek, Stream.seek,
    Stream.read, ret.
  cbn [s_data s_pos].
  change (0 <? 0) with false. cbv beta iota. cbn [s_data s_pos skipn].
  change (Z.to_nat 0) with 0%nat.
  destruct (Z.ltb_spec (Z.of_nat pos') 0); [lia|].
  rewrite Nat2Z.id, length_firstn, Nat.min_l by exact Hin.
  eexists. exists pos'. split; [reflexivity | exact Hin].
Qed.

(** X16.  With a chunk size of at least 1 [head] does not raise, on any
    stream and for any number of lines; it leaves the bytes as they were
    and the cursor inside the stream.  So does the module-level [head] for
    every read size from 1 to [2 ^ 32]. *)
Theorem head_never_raises lines s :
  (forall self,
     1 <= Tailer.size self ->
     exists result end_pos,
       Tailer.head self lines s = (Ok result, mkStream (s_data s) end_pos)
       /\ (end_pos <= length (s_data s))%nat)
  /\ (forall read_size,
        1 <= read_size <= 2 ^ 32 ->
        exists result end_pos,
          head lines read_size s = (Ok result, mkStream (s_data s) end_pos)
          /\ (end_pos <= length (s_data s))%nat).
Proof.
  split.
  - intros self. apply head_ok.
  - intros read_size Hr. unfold head, bind.
    destruct (init_chunk_size read_size s Hr) as [-> Hge].
    apply head_ok. simpl. lia.
Qed.

Lemma head_never_raises_witness :
  exists result end_pos,
    head 3 2 (file scenario_A) = (Ok result, mkStream scenario_A end_pos)
    /\ (end_pos <= length scenario_A)%nat.
Proof.
  destruct (head_never_raises 3 (file scenario_A)) as [_ H].
  apply (H 2). lia.
Defined.
